(** * hammer.js input layer: the session-based multi-pointer geometry engine

    A shallow embedding of [src/input.js]: the lifecycle classifier
    ([inputHandler]), the enrichment engine ([computeInputData]), the session
    snapshot ([simpleCloneInputData]) and the geometry primitives
    ([getCenter], [getDirection], [getDistance], [getAngle], [getRotation],
    [getScale]).

    JavaScript numbers are IEEE 754 binary64 values; they are modelled by the
    primitive floats of the kernel, whose operations are specified by
    [FloatAxioms] against [SpecFloat].  Array lengths are [nat], the event
    kind is the integer the source compares with [===]. *)

From Stdlib Require Import ZArith List Bool String Lia Permutation Floats.
Import ListNotations.

(** ** JavaScript values used by the source *)

(** A completion of a JavaScript evaluation: a value, or a thrown error.  The
    only error the modelled code can raise is the [TypeError] of reading a
    property of [undefined]. *)
Inductive JSError : Type := TypeError.

Inductive Completion (A : Type) : Type :=
| Normal (a : A)
| Throw (e : JSError).
Arguments Normal {A} a.
Arguments Throw {A} e.

Definition bindC {A B : Type} (c : Completion A) (k : A -> Completion B) : Completion B :=
  match c with
  | Normal a => k a
  | Throw e => Throw e
  end.

Notation "'do' x <- c ;; k" := (bindC c (fun x => k))
  (at level 10, x name, c at level 100, k at level 200).

(** [a[i]]: the element, or [undefined] out of range. *)
Definition index {A : Type} (a : list A) (i : nat) : option A := nth_error a i.

(** Reading a property of [a[i]]: a [TypeError] when [a[i]] is [undefined]. *)
Definition deref {A : Type} (o : option A) : Completion A :=
  match o with
  | Some v => Normal v
  | None => Throw TypeError
  end.

(** Truthiness of a session slot: [undefined] and [false] are falsy, a
    snapshot object is truthy. *)
Definition truthy {A : Type} (o : option A) : bool :=
  match o with
  | Some _ => true
  | None => false
  end.

(** ** The platform's [Math] object *)

Definition Math_PI : float := 0x1.921fb54442d18p+1%float.

(** [true] on negative numbers and on [-0]. *)
Definition is_neg (v : float) : bool :=
  ((v <? 0) || ((v =? 0) && (1 / v <? 0)))%float.

(** One step of ECMAScript's [Math.min]: [NaN] is absorbing, [-0] is below
    [+0], otherwise the smaller number is kept. *)
Definition min_step (lowest number : float) : float :=
  if is_nan number || is_nan lowest then nan
  else if (number =? 0)%float && (lowest =? 0)%float
       then (if is_neg number then number else lowest)
  else if (number <? lowest)%float then number else lowest.

(** [Math.min.apply(Math, values)]: starts from [+Infinity]. *)
Definition Math_min (values : list float) : float :=
  fold_left min_step values infinity.

(** One step of ECMAScript's [Math.max]: [NaN] is absorbing, [+0] is above
    [-0], otherwise the larger number is kept. *)
Definition max_step (highest number : float) : float :=
  if is_nan number || is_nan highest then nan
  else if (number =? 0)%float && (highest =? 0)%float
       then (if is_neg number then highest else number)
  else if (highest <? number)%float then number else highest.

(** [Math.max.apply(Math, values)]: starts from [-Infinity]. *)
Definition Math_max (values : list float) : float :=
  fold_left max_step values neg_infinity.

(** *** Reference implementations used to evaluate closed examples

    [round] is a helper of the library that [input.js] uses without defining
    it, and [Math.atan2] is implementation-approximated in ECMAScript: the
    engine below is parametric in both.  The two functions here instantiate
    them when an example is evaluated. *)

Definition two52 : float := 4503599627370496%float.

Definition Math_floor (v : float) : float :=
  if (abs v <? two52)%float then
    let t := if (v <? 0)%float then ((v - two52) + two52)%float
             else ((v + two52) - two52)%float in
    if (v <? t)%float then (t - 1)%float else t
  else v.

(** Modelled from the spec: [round], absent from src/, rounds a coordinate to
    integer pixels; this is [Math.round], the nearest integer with ties
    towards [+Infinity]. *)
Definition Math_round (v : float) : float :=
  if (abs v <? two52)%float then
    let f := Math_floor v in
    let r := if (0.5 <=? v - f)%float then (f + 1)%float else f in
    if (r =? 0)%float && is_neg v then neg_zero else r
  else v.

(** Gregory's series for the arc tangent of a small argument. *)
Definition atan_small (z : float) : float :=
  let w := (z * z)%float in
  (z * (1 - w * (1 / 3 - w * (1 / 5 - w * (1 / 7 - w * (1 / 9 - w * (1 / 11
     - w * (1 / 13 - w * (1 / 15 - w * (1 / 17))))))))))%float.

Definition atan_halve (z : float) : float := (z / (1 + sqrt (1 + z * z)))%float.

Definition atan_unit (z : float) : float :=
  (8 * atan_small (atan_halve (atan_halve (atan_halve z))))%float.

Definition Math_atan (z : float) : float :=
  let a := abs z in
  let r := if (1 <? a)%float then (Math_PI / 2 - atan_unit (1 / a))%float
           else atan_unit a in
  if (z <? 0)%float then (- r)%float else r.

(** An approximation of [Math.atan2] with ECMAScript's special cases. *)
Definition Math_atan2 (y x : float) : float :=
  if is_nan x || is_nan y then nan
  else if (y =? 0)%float then
    (if is_neg x then (if is_neg y then (- Math_PI)%float else Math_PI) else y)
  else if (x =? 0)%float then
    (if (y <? 0)%float then (- (Math_PI / 2))%float else (Math_PI / 2)%float)
  else if is_infinity x then
    (let r := if is_infinity y
              then (if (0 <? x)%float then (Math_PI / 4)%float
                    else (3 * Math_PI / 4)%float)
              else (if (0 <? x)%float then 0%float else Math_PI) in
     if (y <? 0)%float then (- r)%float else r)
  else if is_infinity y then
    (if (y <? 0)%float then (- (Math_PI / 2))%float else (Math_PI / 2)%float)
  else if (0 <? x)%float then Math_atan (y / x)
  else if (y <? 0)%float then (Math_atan (y / x) - Math_PI)%float
  else (Math_atan (y / x) + Math_PI)%float.

(** ** Constants of the module *)

Definition EVENT_START : Z := 1.
Definition EVENT_MOVE : Z := 2.
Definition EVENT_END : Z := 4.
Definition EVENT_CANCEL : Z := 8.

Definition DIRECTION_LEFT : string := "left".
Definition DIRECTION_RIGHT : string := "right".
Definition DIRECTION_UP : string := "up".
Definition DIRECTION_DOWN : string := "down".
Definition DIRECTION_NONE : string := EmptyString.

(** ** Data model *)

(** A pointer as the engine reads it: only [clientX] and [clientY] are used. *)
Record Pointer : Type := mkPointer { clientX : float; clientY : float }.

Record Point : Type := mkPoint { x : float; y : float }.

(** [PROPS_XY] and [PROPS_CLIENT_XY]: the two keys [getDistance] and
    [getAngle] read, as the accessors of the object they are applied to. *)
Definition PROPS_XY : (Point -> float) * (Point -> float) := (x, y).
Definition PROPS_CLIENT_XY : (Pointer -> float) * (Pointer -> float) :=
  (clientX, clientY).

Module SrcEvent.
Record t : Type := mk { timeStamp : float }.
End SrcEvent.

(** The object [simpleCloneInputData] returns. *)
Module Snapshot.
Record t : Type := mk {
  timeStamp : float;
  pointers : list Pointer;
  center : Point
}.
End Snapshot.

(** [inst.session]: each slot is a snapshot, or falsy ([undefined] in a
    fresh [{}], [false] after the single-pointer reset). *)
Record Session : Type := mkSession {
  firstInput : option Snapshot.t;
  firstMultiple : option Snapshot.t
}.

(** [{}] *)
Definition emptySession : Session :=
  {| firstInput := None; firstMultiple := None |}.

(** What an input adapter hands to [inputHandler]. *)
Record RawInput : Type := mkRawInput {
  pointers : list Pointer;
  changedPointers : list Pointer;
  srcEvent : SrcEvent.t
}.

(** The properties [computeInputData] assigns to [inputData]. *)
Record Computed : Type := mkComputed {
  timeStamp : float;
  center : Point;
  angle : float;
  distance : float;
  direction : string;
  velocity : float;
  velocityX : float;
  velocityY : float;
  deltaTime : float;
  deltaX : float;
  deltaY : float;
  scale : float;
  rotation : float
}.

(** [inputData] when [inputHandler] is done with it: the sample, the
    properties the classifier always assigns, and the properties the
    enrichment assigned, or the error that interrupted it.  [inst.update]
    receives the object when the enrichment completed normally. *)
Record InputData : Type := mkInputData {
  input : RawInput;
  isFirst : bool;
  isFinal : bool;
  eventType : Z;
  computed : Completion Computed
}.

(** The part of the instance [inputHandler] touches. *)
Record Instance : Type := mkInstance { session : Session }.

(** ** The engine

    [round] is the library's rounding helper and [atan2] the platform's
    [Math.atan2]; the engine is parametric in both. *)

Section Engine.

Variable round : float -> float.
Variable atan2 : float -> float -> float.

(** get the center of all the pointers *)
Definition getCenter (pointers : list Pointer) : Point :=
  match pointers with
  | [p] =>
      (* no need to loop when only one touch *)
      {| x := round (clientX p); y := round (clientY p) |}
  | _ =>
      let xs := map clientX pointers in
      let ys := map clientY pointers in
      {| x := round ((Math_min xs + Math_max xs) / 2)%float;
         y := round ((Math_min ys + Math_max ys) / 2)%float |}
  end.

(** get the direction between two points *)
Definition getDirection (p1 p2 : Point) : string :=
  let dx := (x p1 - x p2)%float in
  let dy := (y p1 - y p2)%float in
  (* no direction because the positions are equal *)
  if (dx =? dy)%float then DIRECTION_NONE
  else if (abs dy <=? abs dx)%float
       then (if (0 <? dx)%float then DIRECTION_LEFT else DIRECTION_RIGHT)
  else (if (0 <? dy)%float then DIRECTION_UP else DIRECTION_DOWN).

(** calculate the absolute distance between two points; [props] holds the
    two keys, [PROPS_XY] where the source leaves it out *)
Definition getDistance {P : Type} (p1 p2 : P) (props : (P -> float) * (P -> float)) : float :=
  let dx := (fst props p2 - fst props p1)%float in
  let dy := (snd props p2 - snd props p1)%float in
  sqrt ((dx * dx) + (dy * dy))%float.

(** calculate the angle between two coordinates *)
Definition getAngle {P : Type} (p1 p2 : P) (props : (P -> float) * (P -> float)) : float :=
  let dx := (fst props p2 - fst props p1)%float in
  let dy := (snd props p2 - snd props p1)%float in
  (atan2 dy dx * 180 / Math_PI)%float.

(** calculate the rotation degrees between two pointersets; reading a
    coordinate of a missing slot throws *)
Definition getRotation (start end_ : list Pointer) : Completion float :=
  do e0 <- deref (index end_ 0) ;;
  do e1 <- deref (index end_ 1) ;;
  do s0 <- deref (index start 0) ;;
  do s1 <- deref (index start 1) ;;
  Normal (getAngle e1 e0 PROPS_CLIENT_XY - getAngle s1 s0 PROPS_CLIENT_XY)%float.

(** calculate the scale factor between two pointersets *)
Definition getScale (start end_ : list Pointer) : Completion float :=
  do e1 <- deref (index end_ 1) ;;
  do e0 <- deref (index end_ 0) ;;
  do s1 <- deref (index start 1) ;;
  do s0 <- deref (index start 0) ;;
  Normal (getDistance e0 e1 PROPS_CLIENT_XY / getDistance s0 s1 PROPS_CLIENT_XY)%float.

(** create a simple clone from the inputData used for storage of
    firstInput and firstMultiple *)
Definition simpleCloneInputData (inputData : RawInput) : Snapshot.t :=
  let pointers :=
    map (fun pointer => {| clientX := round (clientX pointer);
                           clientY := round (clientY pointer) |})
        (pointers inputData) in
  {| Snapshot.timeStamp := SrcEvent.timeStamp (srcEvent inputData);
     Snapshot.pointers := pointers;
     Snapshot.center := getCenter pointers |}.

(** The two baseline updates at the head of [computeInputData]: the
    [if] on [session.firstInput], then the [if]/[else if] on
    [pointersLength] and [session.firstMultiple]. *)
Definition storeFirstInput (session : Session) (inputData : RawInput) : Session :=
  if negb (truthy (firstInput session))
  then {| firstInput := Some (simpleCloneInputData inputData);
          firstMultiple := firstMultiple session |}
  else session.

Definition storeFirstMultiple (session : Session) (inputData : RawInput) : Session :=
  let pointersLength := List.length (pointers inputData) in
  if (1 <? pointersLength) && negb (truthy (firstMultiple session))
  then {| firstInput := firstInput session;
          firstMultiple := Some (simpleCloneInputData inputData) |}
  else if pointersLength =? 1
  then {| firstInput := firstInput session; firstMultiple := None |}
  else session.

(** extend the data with some usable properties like scale, rotate,
    velocity etc.  The session is mutated in place, so its update survives
    a throw; the properties assigned to [inputData] are returned. *)
Definition computeInputData (session : Session) (inputData : RawInput)
  : Session * Completion Computed :=
  let pointers := pointers inputData in
  (* store the first input to calculate the distance and direction *)
  let session := storeFirstInput session inputData in
  (* to compute scale and rotation we need to store the multiple touches *)
  let session := storeFirstMultiple session inputData in
  (session,
   let firstMultiple := firstMultiple session in
   do firstInput <- deref (firstInput session) ;;
   let offsetCenter :=
     match firstMultiple with
     | Some fm => Snapshot.center fm
     | None => Snapshot.center firstInput
     end in
   let center := getCenter pointers in
   let timeStamp := SrcEvent.timeStamp (srcEvent inputData) in
   do scale <- match firstMultiple with
               | Some fm => getScale (Snapshot.pointers fm) pointers
               | None => Normal 1%float
               end ;;
   do rotation <- match firstMultiple with
                  | Some fm => getRotation (Snapshot.pointers fm) pointers
                  | None => Normal 0%float
                  end ;;
   Normal {| timeStamp := timeStamp;
             center := center;
             angle := getAngle offsetCenter center PROPS_XY;
             distance := getDistance offsetCenter center PROPS_XY;
             direction := getDirection offsetCenter center;
             velocity := 0.5%float;
             velocityX := 0.5%float;
             velocityY := 0.5%float;
             deltaTime := (timeStamp - Snapshot.timeStamp firstInput)%float;
             deltaX := (x center - x offsetCenter)%float;
             deltaY := (y center - y offsetCenter)%float;
             scale := scale;
             rotation := rotation |}).

(** handle input events: classify, reset the session on a first sample,
    enrich, and hand the sample to [inst.update]. *)
Definition inputHandler (inst : Instance) (eventType : Z) (inputData : RawInput)
  : Instance * InputData :=
  let pointersLen := Z.of_nat (List.length (pointers inputData)) in
  let changedPointersLen := Z.of_nat (List.length (changedPointers inputData)) in
  let isFirst := (eventType =? EVENT_START)%Z && (pointersLen - changedPointersLen =? 0)%Z in
  let isFinal := (eventType =? EVENT_END)%Z && (pointersLen - changedPointersLen =? 0)%Z in
  let inst := if (eventType =? EVENT_START)%Z && isFirst
              then {| session := emptySession |} else inst in
  (* compute scale, rotation etc *)
  let (session', r) := computeInputData (session inst) inputData in
  ({| session := session' |},
   {| input := inputData;
      isFirst := isFirst;
      isFinal := isFinal;
      eventType := eventType;
      computed := r |}).

(** The session after a sequence of enrichment calls, applied in order. *)
Definition enrichAll (session : Session) (samples : list RawInput) : Session :=
  fold_left (fun s d => fst (computeInputData s d)) samples session.

End Engine.

(** ** Specification-side notions *)

(** The input contract of the engine: every sample carries at least one
    pointer. *)
Definition wellFormed (inputData : RawInput) : Prop :=
  1 <= List.length (pointers inputData).

(** The samples seen so far contain one with more than one pointer that no
    single-pointer sample follows. *)
Definition multiSinceSingle (samples : list RawInput) : Prop :=
  exists before d after,
    samples = before ++ d :: after /\
    1 < List.length (pointers d) /\
    Forall (fun d' => List.length (pointers d') <> 1) after.

(** A stored multi-pointer baseline holds at least two pointers. *)
Definition baselineOk (session : Session) : Prop :=
  forall fm, firstMultiple session = Some fm ->
             2 <= List.length (Snapshot.pointers fm).

(** A point of the data model: pixel coordinates, hence finite numbers. *)
Definition pixel (p : Point) : Prop :=
  is_finite (x p) = true /\ is_finite (y p) = true.

(** Equal client coordinates, in the sense of [===]. *)
Definition coincident (p q : Pointer) : Prop :=
  (clientX p =? clientX q)%float = true /\
  (clientY p =? clientY q)%float = true.

(** *** An order on the numbers that are not [NaN]

    The order of the reals, with [-0] below [+0]: the order [Math.min] and
    [Math.max] select by.  A number is ranked by its sign class, then (for
    finite non-zero numbers) by exponent and mantissa. *)
Definition rank (f : spec_float) : Z * Z * Z :=
  match f with
  | S754_nan => (0, 0, 0)%Z
  | S754_infinity true => (-3, 0, 0)%Z
  | S754_infinity false => (3, 0, 0)%Z
  | S754_zero true => (-1, 0, 0)%Z
  | S754_zero false => (1, 0, 0)%Z
  | S754_finite true m e => (-2, - e, - Zpos m)%Z
  | S754_finite false m e => (2, e, Zpos m)%Z
  end.

Definition lex3 (a b : Z * Z * Z) : Prop :=
  let '(a1, a2, a3) := a in
  let '(b1, b2, b3) := b in
  (a1 < b1 \/ (a1 = b1 /\ (a2 < b2 \/ (a2 = b2 /\ a3 < b3))))%Z.

Definition below (a b : float) : Prop :=
  lex3 (rank (Prim2SF a)) (rank (Prim2SF b)).

(** The value of a distance between coincident points: [+0], or [NaN] when
    the coordinates are infinite. *)
Definition zeroOrNaN (v : float) : Prop :=
  Prim2SF v = S754_zero false \/ Prim2SF v = S754_nan.

(** *** A two-finger gesture, used to evaluate the engine *)

Definition touch (cx cy : float) : Pointer := {| clientX := cx; clientY := cy |}.

Definition sampleAt (t : float) (active changed : list Pointer) : RawInput :=
  {| pointers := active;
     changedPointers := changed;
     srcEvent := {| SrcEvent.timeStamp := t |} |}.

(** First finger down at (0,0). *)
Definition fingerDown : RawInput := sampleAt 0 [touch 0 0] [touch 0 0].
(** The finger moves to (10,0). *)
Definition fingerMove : RawInput := sampleAt 100 [touch 10 0] [touch 10 0].
(** A second finger lands at (10,0), the first is back at (0,0). *)
Definition secondDown : RawInput :=
  sampleAt 200 [touch 0 0; touch 10 0] [touch 10 0].
(** The second finger moves out to (20,0). *)
Definition pinchOut : RawInput :=
  sampleAt 300 [touch 0 0; touch 20 0] [touch 20 0].
(** The second finger is lifted: both are still listed, one has changed. *)
Definition secondUp : RawInput :=
  sampleAt 400 [touch 0 0; touch 20 0] [touch 20 0].
(** The last finger is lifted. *)
Definition lastUp : RawInput := sampleAt 500 [touch 0 0] [touch 0 0].
(** Two fingers land on the same pixel. *)
Definition stackedDown : RawInput :=
  sampleAt 200 [touch 5 5; touch 5 5] [touch 5 5].
(** ... and one of them moves away to (8,9). *)
Definition stackedMove : RawInput :=
  sampleAt 300 [touch 5 5; touch 8 9] [touch 8 9].

(** The session after the first finger, and after the second one. *)
Definition oneFinger : Session :=
  enrichAll Math_round Math_atan2 emptySession [fingerDown].
Definition twoFingers : Session :=
  enrichAll Math_round Math_atan2 emptySession [fingerDown; secondDown].
Definition stacked : Session :=
  enrichAll Math_round Math_atan2 emptySession [fingerDown; stackedDown].

(** The instance after a sequence of events, handled in order. *)
Definition handleAll (round : float -> float) (atan2 : float -> float -> float)
           (inst : Instance) (events : list (Z * RawInput)) : Instance :=
  fold_left (fun i e => fst (inputHandler round atan2 i (fst e) (snd e))) events inst.

(** Two fingers went down, pinched out, and the second one was lifted. *)
Definition beforeLastUp : Instance :=
  handleAll Math_round Math_atan2 {| session := emptySession |}
            [(EVENT_START, fingerDown); (EVENT_START, secondDown);
             (EVENT_MOVE, pinchOut); (EVENT_END, secondUp)].

(** ** Adapter selection

    [createInputInstance] picks the adapter class from three facts about
    the platform, which the module reads once when it is loaded: whether
    [prefixed('PointerEvent', window)] is truthy, whether ['ontouchstart'] is
    in [window], and the user agent string. *)

Record Platform : Type := mkPlatform {
  SUPPORT_POINTER_EVENTS : bool;
  SUPPORT_TOUCH : bool;
  userAgent : string
}.

(** The adapter classes [createInputInstance] chooses from. *)
Inductive InputType : Type :=
| PointerEventInput
| TouchInput
| MouseInput
| TouchMouseInput.

(** The canonical form of a character under the [i] flag: the two cases of
    an ASCII letter are one character. *)
Definition canon (c : Ascii.ascii) : Ascii.ascii :=
  let n := Ascii.nat_of_ascii c in
  if (65 <=? n) && (n <=? 90) then Ascii.ascii_of_nat (n + 32) else c.

(** [w] matches at the start of [s], case apart. *)
Fixpoint prefix_ci (w s : string) : bool :=
  match w, s with
  | EmptyString, _ => true
  | String _ _, EmptyString => false
  | String a w', String b s' => Ascii.eqb (canon a) (canon b) && prefix_ci w' s'
  end.

(** [w] matches somewhere in [s], case apart. *)
Fixpoint contains_ci (w s : string) : bool :=
  prefix_ci w s ||
  match s with
  | EmptyString => false
  | String _ s' => contains_ci w s'
  end.

(** The alternatives of [/mobile|tablet|ip(ad|hone|od)|android|silk/i]. *)
Definition MOBILE_WORDS : list string :=
  ["mobile"; "tablet"; "ipad"; "iphone"; "ipod"; "android"; "silk"]%string.

(** [MOBILE_REGEX.test(ua)] *)
Definition MOBILE_REGEX_test (ua : string) : bool :=
  existsb (fun w => contains_ci w ua) MOBILE_WORDS.

Definition SUPPORT_ONLY_TOUCH (pf : Platform) : bool :=
  SUPPORT_TOUCH pf && MOBILE_REGEX_test (userAgent pf).

(** create new input type instance: the class that is instantiated (with
    the instance and [inputHandler]) *)
Definition createInputInstance (pf : Platform) : InputType :=
  if SUPPORT_POINTER_EVENTS pf then PointerEventInput
  else if SUPPORT_ONLY_TOUCH pf then TouchInput
  else if negb (SUPPORT_TOUCH pf) then MouseInput
  else TouchMouseInput.

(** A string with every character in canonical form. *)
Fixpoint casefold (s : string) : string :=
  match s with
  | EmptyString => EmptyString
  | String c s' => String (canon c) (casefold s')
  end.

(** ** Notions used by the further properties *)

(** Two numbers that are opposite, the sign of a zero apart. *)
Definition mirrored (f g : spec_float) : Prop :=
  g = SFopp f \/ (exists s s', f = S754_zero s /\ g = S754_zero s').

(** [NaN], or a number whose sign bit is clear. *)
Definition unsigned (f : spec_float) : Prop :=
  match f with
  | S754_nan => True
  | S754_zero s | S754_infinity s | S754_finite s _ _ => s = false
  end.

(** The direction seen from the other end. *)
Definition opposite (d : string) : string :=
  if String.eqb d DIRECTION_LEFT then DIRECTION_RIGHT
  else if String.eqb d DIRECTION_RIGHT then DIRECTION_LEFT
  else if String.eqb d DIRECTION_UP then DIRECTION_DOWN
  else if String.eqb d DIRECTION_DOWN then DIRECTION_UP
  else d.

(** [getDirection] on the specification of its two differences. *)
Definition directionSF (dx dy : spec_float) : string :=
  if SFeqb dx dy then DIRECTION_NONE
  else if SFleb (SFabs dy) (SFabs dx)
       then (if SFltb (S754_zero false) dx then DIRECTION_LEFT else DIRECTION_RIGHT)
  else (if SFltb (S754_zero false) dy then DIRECTION_UP else DIRECTION_DOWN).

(** The coordinates of a sample are whole pixels already: [round] leaves
    them as they are. *)
Definition wholePixels (round : float -> float) (ps : list Pointer) : Prop :=
  Forall (fun p => round (clientX p) = clientX p /\
                   round (clientY p) = clientY p) ps.

(** Platforms used to evaluate the adapter selection. *)
Definition androidPhone : Platform :=
  {| SUPPORT_POINTER_EVENTS := false;
     SUPPORT_TOUCH := true;
     userAgent := "Mozilla/5.0 (Linux; Android 4.4; Nexus 5) Mobile Safari" |}.

Definition touchLaptop : Platform :=
  {| SUPPORT_POINTER_EVENTS := false;
     SUPPORT_TOUCH := true;
     userAgent := "Mozilla/5.0 (Windows NT 6.1) Chrome/30.0" |}.

(** A first multi-pointer sample at (0,0) and (3,4). *)
Definition spread : RawInput :=
  sampleAt 200 [touch 0 0; touch 3 4] [touch 3 4].

(** ** Facts about the numbers *)

Lemma SF_zero : Prim2SF 0 = S754_zero false.
Proof. reflexivity. Qed.

Lemma SF_one : Prim2SF 1 = S754_finite false 4503599627370496 (-52).
Proof. reflexivity. Qed.

Lemma SF_infinity : Prim2SF infinity = S754_infinity false.
Proof. reflexivity. Qed.

Lemma SF_neg_infinity : Prim2SF neg_infinity = S754_infinity true.
Proof. reflexivity. Qed.

Lemma is_nan_SF (v : float) : is_nan v = true <-> Prim2SF v = S754_nan.
Proof.
  unfold is_nan. rewrite eqb_spec.
  destruct (Prim2SF v) as [s|s| |s m e]; cbn.
  - split; discriminate.
  - destruct s; split; discriminate.
  - split; reflexivity.
  - unfold SFeqb, SFcompare.
    destruct s; rewrite Z.compare_refl, ?Pos.compare_cont_refl; cbn;
      split; discriminate.
Qed.

Lemma is_nan_false_SF (v : float) : is_nan v = false <-> Prim2SF v <> S754_nan.
Proof. rewrite <- is_nan_SF. destruct (is_nan v); split; congruence. Qed.

Lemma is_finite_SF (v : float) :
  is_finite v = true <->
  (exists s, Prim2SF v = S754_zero s) \/
  (exists s m e, Prim2SF v = S754_finite s m e).
Proof.
  unfold is_finite, is_nan, is_infinity.
  rewrite !eqb_spec, abs_spec, SF_infinity.
  destruct (Prim2SF v) as [s|s| |s m e]; cbn.
  - split; eauto.
  - split; [destruct s; discriminate|].
    intros [[? H]|[? [? [? H]]]]; discriminate.
  - split; [discriminate|].
    intros [[? H]|[? [? [? H]]]]; discriminate.
  - unfold SFeqb, SFcompare.
    destruct s; rewrite Z.compare_refl, ?Pos.compare_cont_refl; cbn;
      split; eauto 6.
Qed.

(** [v - v] is [+0] on every finite number. *)
Lemma sub_diag (v : float) : is_finite v = true -> (v - v)%float = 0%float.
Proof.
  intros Hfin. apply Prim2SF_inj. rewrite sub_spec, SF_zero.
  apply is_finite_SF in Hfin.
  destruct Hfin as [[s ->]|(s & m & e & ->)].
  - now destruct s.
  - unfold SF64sub, SFsub. rewrite Z.sub_diag. reflexivity.
Qed.

Lemma leb_zero_not_pos (v : float) :
  (v <=? 0)%float = true -> (0 <? v)%float = false.
Proof.
  rewrite leb_spec, ltb_spec, SF_zero.
  destruct (Prim2SF v) as [s|s| |s m e]; cbn; try reflexivity;
    destruct s; cbn; congruence.
Qed.

(** Numbers equal in the sense of [===] differ by a zero, or by [NaN] when
    they are infinite. *)
Lemma eqb_sub (a b : float) :
  (a =? b)%float = true ->
  (exists s, Prim2SF (b - a) = S754_zero s) \/
  (Prim2SF (b - a) = S754_nan /\ is_finite a = false).
Proof.
  intros Heq.
  destruct (is_finite a) eqn:Hfin.
  - left. apply is_finite_SF in Hfin.
    rewrite eqb_spec in Heq. rewrite sub_spec.
    destruct Hfin as [[s1 Ha]|(s1 & m1 & e1 & Ha)]; rewrite Ha in *.
    + destruct (Prim2SF b) as [s2|s2| |s2 m2 e2];
        try (cbn in Heq; discriminate);
        try (destruct s2; cbn in Heq; discriminate).
      destruct s1, s2; cbn; eauto.
    + destruct (Prim2SF b) as [s2|s2| |s2 m2 e2];
        try (cbn in Heq; discriminate);
        try (destruct s1; cbn in Heq; discriminate);
        try (destruct s2; cbn in Heq; discriminate).
      exists false.
      assert (Hsame : s1 = s2 /\ e1 = e2 /\ m1 = m2).
      { unfold SFeqb, SFcompare in Heq.
        destruct s1, s2; try discriminate;
          destruct (Z.compare_spec e1 e2); try discriminate;
          change (Pos.compare_cont Eq m1 m2) with (Pos.compare m1 m2) in Heq;
          destruct (Pos.compare_spec m1 m2); try discriminate; auto. }
      destruct Hsame as (-> & -> & ->).
      unfold SF64sub, SFsub. rewrite Z.sub_diag. reflexivity.
  - rewrite eqb_spec in Heq. rewrite sub_spec.
    assert (Hinf : exists s, Prim2SF a = S754_infinity s).
    { destruct (Prim2SF a) as [s1|s1| |s1 m1 e1] eqn:Ha.
      - assert (is_finite a = true) by (apply is_finite_SF; eauto). congruence.
      - eauto.
      - destruct (Prim2SF b); discriminate.
      - assert (is_finite a = true) by (apply is_finite_SF; eauto 6). congruence. }
    destruct Hinf as [s1 Ha]. rewrite Ha in *.
    right. split; [|reflexivity].
    destruct (Prim2SF b) as [s2|s2| |s2 m2 e2];
      try (destruct s1; cbn in Heq; discriminate).
    destruct s1, s2; cbn in *; congruence.
Qed.

Lemma square_zeroOrNaN (v : float) :
  (exists s, Prim2SF v = S754_zero s) \/ Prim2SF v = S754_nan ->
  zeroOrNaN (v * v).
Proof.
  unfold zeroOrNaN. rewrite mul_spec.
  intros [[s ->]| ->]; [left; now destruct s | right; reflexivity].
Qed.

Lemma add_zeroOrNaN (a b : float) :
  zeroOrNaN a -> zeroOrNaN b -> zeroOrNaN (a + b).
Proof.
  unfold zeroOrNaN. rewrite add_spec.
  intros [-> | ->] [-> | ->]; auto.
Qed.

Lemma sqrt_zeroOrNaN (a : float) : zeroOrNaN a -> zeroOrNaN (sqrt a).
Proof.
  unfold zeroOrNaN. rewrite sqrt_spec.
  intros [-> | ->]; auto.
Qed.

(** Dividing by [+0] or by [NaN] never gives a finite number. *)
Lemma div_zeroOrNaN (a b : float) : zeroOrNaN b -> is_finite (a / b) = false.
Proof.
  intros Hb.
  destruct (is_finite (a / b)) eqn:Hfin; [|reflexivity].
  apply is_finite_SF in Hfin. rewrite div_spec in Hfin.
  exfalso.
  destruct Hb as [Hb | Hb]; rewrite Hb in Hfin;
    destruct (Prim2SF a) as [s|s| |s m e]; cbn in Hfin;
    destruct Hfin as [[? H]|(? & ? & ? & H)]; discriminate.
Qed.

(** *** The order behind [Math.min] and [Math.max] *)

Lemma rank_inj (f g : spec_float) :
  f <> S754_nan -> g <> S754_nan -> rank f = rank g -> f = g.
Proof.
  intros Hf Hg.
  destruct f as [s1|s1| |s1 m1 e1], g as [s2|s2| |s2 m2 e2]; try congruence;
    destruct s1, s2; cbn; intros [= ]; try lia; try reflexivity.
  - f_equal; lia.
  - f_equal; lia.
Qed.

Lemma below_trichotomy (a b : float) :
  is_nan a = false -> is_nan b = false -> below a b \/ a = b \/ below b a.
Proof.
  rewrite !is_nan_false_SF. intros Ha Hb.
  pose proof (rank_inj _ _ Ha Hb) as Hinj.
  unfold below.
  destruct (rank (Prim2SF a)) as [[a1 a2] a3],
           (rank (Prim2SF b)) as [[b1 b2] b3].
  destruct (Z.lt_total a1 b1) as [?|[?|?]]; cbn; try lia.
  destruct (Z.lt_total a2 b2) as [?|[?|?]]; try lia.
  destruct (Z.lt_total a3 b3) as [?|[?|?]]; try lia.
  right. left. apply Prim2SF_inj, Hinj. congruence.
Qed.

Ltac below_lia :=
  unfold below in *;
  repeat match goal with
         | H : context [rank (Prim2SF ?v)] |- _ =>
             let r1 := fresh "r" in
             let r2 := fresh "r" in
             let r3 := fresh "r" in
             destruct (rank (Prim2SF v)) as [[r1 r2] r3]
         | |- context [rank (Prim2SF ?v)] =>
             let r1 := fresh "r" in
             let r2 := fresh "r" in
             let r3 := fresh "r" in
             destruct (rank (Prim2SF v)) as [[r1 r2] r3]
         end;
  cbn [lex3] in *; lia.

Lemma below_trans (a b c : float) : below a b -> below b c -> below a c.
Proof. intros. below_lia. Qed.

Lemma below_asym (a b : float) : below a b -> ~ below b a.
Proof. intros. below_lia. Qed.

Lemma below_infinity (v : float) : is_nan v = false -> ~ below infinity v.
Proof.
  rewrite is_nan_false_SF. unfold below. rewrite SF_infinity.
  destruct (Prim2SF v) as [s|s| |s m e]; try congruence;
    destruct s; cbn; lia.
Qed.

Lemma below_neg_infinity (v : float) : is_nan v = false -> ~ below v neg_infinity.
Proof.
  rewrite is_nan_false_SF. unfold below. rewrite SF_neg_infinity.
  destruct (Prim2SF v) as [s|s| |s m e]; try congruence;
    destruct s; cbn; lia.
Qed.

Lemma SFltb_rank (f g : spec_float) :
  f <> S754_nan -> g <> S754_nan ->
  SFeqb f (S754_zero false) && SFeqb g (S754_zero false) = false ->
  (SFltb f g = true <-> lex3 (rank f) (rank g)).
Proof.
  intros Hf Hg.
  destruct f as [s1|s1| |s1 m1 e1], g as [s2|s2| |s2 m2 e2]; try congruence;
    try (destruct s1, s2; cbn; intros; split;
         (discriminate || lia || reflexivity)).
  cbn. intros _. unfold SFltb, SFcompare.
  change (Pos.compare_cont Eq m1 m2) with (Pos.compare m1 m2).
  destruct s1, s2; cbn; try (split; (discriminate || lia || reflexivity));
    destruct (Z.compare_spec e1 e2); destruct (Pos.compare_spec m1 m2); cbn;
    split; intros; try discriminate; try reflexivity; try lia.
Qed.

Lemma SFleb_rank (f g : spec_float) :
  f <> S754_nan -> g <> S754_nan ->
  ~ lex3 (rank g) (rank f) -> SFleb f g = true.
Proof.
  intros Hf Hg.
  destruct f as [s1|s1| |s1 m1 e1], g as [s2|s2| |s2 m2 e2]; try congruence;
    try (destruct s1, s2; cbn; intros; (reflexivity || lia)).
  unfold SFleb, SFcompare.
  change (Pos.compare_cont Eq m1 m2) with (Pos.compare m1 m2).
  destruct s1, s2; cbn; try (intros; (reflexivity || lia));
    destruct (Z.compare_spec e1 e2); destruct (Pos.compare_spec m1 m2); cbn;
    intros; try reflexivity; lia.
Qed.

(** A number that is not below another is at least it, in the sense of
    [<=]. *)
Lemma not_below_leb (a b : float) :
  is_nan a = false -> is_nan b = false -> ~ below b a -> (a <=? b)%float = true.
Proof.
  rewrite !is_nan_false_SF, leb_spec. intros Ha Hb. now apply SFleb_rank.
Qed.

Lemma eqb_zero_SF (v : float) :
  (v =? 0)%float = SFeqb (Prim2SF v) (S754_zero false).
Proof. now rewrite eqb_spec, SF_zero. Qed.

Lemma is_neg_SF (v : float) :
  is_neg v =
  match Prim2SF v with
  | S754_zero s | S754_infinity s | S754_finite s _ _ => s
  | S754_nan => false
  end.
Proof.
  unfold is_neg. rewrite !ltb_spec, eqb_spec, div_spec, SF_zero, SF_one.
  destruct (Prim2SF v) as [s|s| |s m e]; try reflexivity; now destruct s.
Qed.

Lemma min_step_nan (l n : float) :
  is_nan l = true \/ is_nan n = true -> min_step l n = nan.
Proof.
  unfold min_step. intros [-> | ->]; [now rewrite orb_true_r | reflexivity].
Qed.

(** On numbers, a step of [Math.min] keeps the one that is below. *)
Lemma min_step_below (l n : float) :
  is_nan l = false -> is_nan n = false ->
  (below n l /\ min_step l n = n) \/ (~ below n l /\ min_step l n = l).
Proof.
  intros Hl Hn. unfold min_step. rewrite Hl, Hn. cbn [orb].
  rewrite !eqb_zero_SF, is_neg_SF, ltb_spec.
  apply is_nan_false_SF in Hl, Hn.
  pose proof (SFltb_rank _ _ Hn Hl) as Hlt.
  unfold below.
  destruct (SFeqb (Prim2SF n) (S754_zero false) &&
            SFeqb (Prim2SF l) (S754_zero false)) eqn:Hz.
  - clear Hlt.
    destruct (Prim2SF n) as [s1|s1| |s1 m1 e1] eqn:En;
      try (destruct s1; discriminate); try discriminate.
    destruct (Prim2SF l) as [s2|s2| |s2 m2 e2] eqn:El;
      try (destruct s2; discriminate); try discriminate.
    destruct s1, s2; cbn.
    + right. split; [lia|]. apply Prim2SF_inj. congruence.
    + left. split; [lia|reflexivity].
    + right. split; [lia|reflexivity].
    + right. split; [lia|reflexivity].
  - specialize (Hlt eq_refl).
    destruct (SFltb (Prim2SF n) (Prim2SF l)).
    + left. split; [now apply Hlt | reflexivity].
    + right. split; [|reflexivity]. intros H. apply Hlt in H. discriminate.
Qed.

Lemma max_step_nan (h n : float) :
  is_nan h = true \/ is_nan n = true -> max_step h n = nan.
Proof.
  unfold max_step. intros [-> | ->]; [now rewrite orb_true_r | reflexivity].
Qed.

(** On numbers, a step of [Math.max] keeps the one that is above. *)
Lemma max_step_below (h n : float) :
  is_nan h = false -> is_nan n = false ->
  (below h n /\ max_step h n = n) \/ (~ below h n /\ max_step h n = h).
Proof.
  intros Hh Hn. unfold max_step. rewrite Hh, Hn. cbn [orb].
  rewrite !eqb_zero_SF, is_neg_SF, ltb_spec.
  apply is_nan_false_SF in Hh, Hn.
  pose proof (SFltb_rank _ _ Hh Hn) as Hlt.
  unfold below.
  destruct (SFeqb (Prim2SF n) (S754_zero false) &&
            SFeqb (Prim2SF h) (S754_zero false)) eqn:Hz.
  - clear Hlt.
    destruct (Prim2SF n) as [s1|s1| |s1 m1 e1] eqn:En;
      try (destruct s1; discriminate); try discriminate.
    destruct (Prim2SF h) as [s2|s2| |s2 m2 e2] eqn:Eh;
      try (destruct s2; discriminate); try discriminate.
    destruct s1, s2; cbn.
    + right. split; [lia|reflexivity].
    + right. split; [lia|reflexivity].
    + left. split; [lia|reflexivity].
    + right. split; [lia|]. apply Prim2SF_inj. congruence.
  - rewrite andb_comm in Hz. specialize (Hlt Hz).
    destruct (SFltb (Prim2SF h) (Prim2SF n)).
    + left. split; [now apply Hlt | reflexivity].
    + right. split; [|reflexivity]. intros H. apply Hlt in H. discriminate.
Qed.

Lemma min_step_is_nan (l n : float) :
  is_nan (min_step l n) = is_nan l || is_nan n.
Proof.
  destruct (is_nan l) eqn:Hl; [now rewrite min_step_nan by auto|].
  destruct (is_nan n) eqn:Hn; [now rewrite min_step_nan by auto|].
  destruct (min_step_below l n Hl Hn) as [[_ ->]|[_ ->]]; assumption.
Qed.

Lemma max_step_is_nan (h n : float) :
  is_nan (max_step h n) = is_nan h || is_nan n.
Proof.
  destruct (is_nan h) eqn:Hh; [now rewrite max_step_nan by auto|].
  destruct (is_nan n) eqn:Hn; [now rewrite max_step_nan by auto|].
  destruct (max_step_below h n Hh Hn) as [[_ ->]|[_ ->]]; assumption.
Qed.

(** The order in which two values are folded in does not matter. *)
Lemma min_step_swap (a b c : float) :
  min_step (min_step a b) c = min_step (min_step a c) b.
Proof.
  destruct (is_nan a) eqn:Ha.
  { rewrite !(min_step_nan a) by auto. now rewrite !min_step_nan by auto. }
  destruct (is_nan b) eqn:Hb.
  { rewrite (min_step_nan a b) by auto. rewrite (min_step_nan nan c) by auto.
    now rewrite (min_step_nan _ b) by auto. }
  destruct (is_nan c) eqn:Hc.
  { rewrite (min_step_nan a c) by auto. rewrite (min_step_nan nan b) by auto.
    now rewrite (min_step_nan _ c) by auto. }
  assert (Hab : is_nan (min_step a b) = false)
    by now rewrite min_step_is_nan, Ha, Hb.
  assert (Hac : is_nan (min_step a c) = false)
    by now rewrite min_step_is_nan, Ha, Hc.
  destruct (min_step_below a b Ha Hb) as [[L1 E1]|[L1 E1]];
    destruct (min_step_below a c Ha Hc) as [[L2 E2]|[L2 E2]];
    destruct (min_step_below _ c Hab Hc) as [[L3 E3]|[L3 E3]];
    destruct (min_step_below _ b Hac Hb) as [[L4 E4]|[L4 E4]];
    rewrite E3, E4, ?E1, ?E2; rewrite ?E1 in L3; rewrite ?E2 in L4;
    try reflexivity;
    clear E1 E2 E3 E4 Hab Hac;
    destruct (below_trichotomy b c Hb Hc) as [Hbc|[Hbc|Hbc]];
    destruct (below_trichotomy a c Ha Hc) as [Hac|[Hac|Hac]];
    destruct (below_trichotomy a b Ha Hb) as [Hab|[Hab|Hab]];
    subst; try reflexivity; exfalso; below_lia.
Qed.

Lemma max_step_swap (a b c : float) :
  max_step (max_step a b) c = max_step (max_step a c) b.
Proof.
  destruct (is_nan a) eqn:Ha.
  { rewrite !(max_step_nan a) by auto. now rewrite !max_step_nan by auto. }
  destruct (is_nan b) eqn:Hb.
  { rewrite (max_step_nan a b) by auto. rewrite (max_step_nan nan c) by auto.
    now rewrite (max_step_nan _ b) by auto. }
  destruct (is_nan c) eqn:Hc.
  { rewrite (max_step_nan a c) by auto. rewrite (max_step_nan nan b) by auto.
    now rewrite (max_step_nan _ c) by auto. }
  assert (Hab : is_nan (max_step a b) = false)
    by now rewrite max_step_is_nan, Ha, Hb.
  assert (Hac : is_nan (max_step a c) = false)
    by now rewrite max_step_is_nan, Ha, Hc.
  destruct (max_step_below a b Ha Hb) as [[L1 E1]|[L1 E1]];
    destruct (max_step_below a c Ha Hc) as [[L2 E2]|[L2 E2]];
    destruct (max_step_below _ c Hab Hc) as [[L3 E3]|[L3 E3]];
    destruct (max_step_below _ b Hac Hb) as [[L4 E4]|[L4 E4]];
    rewrite E3, E4, ?E1, ?E2; rewrite ?E1 in L3; rewrite ?E2 in L4;
    try reflexivity;
    clear E1 E2 E3 E4 Hab Hac;
    destruct (below_trichotomy b c Hb Hc) as [Hbc|[Hbc|Hbc]];
    destruct (below_trichotomy a c Ha Hc) as [Hac|[Hac|Hac]];
    destruct (below_trichotomy a b Ha Hb) as [Hab|[Hab|Hab]];
    subst; try reflexivity; exfalso; below_lia.
Qed.

Lemma fold_left_swap {A B : Type} (f : A -> B -> A) :
  (forall a b c, f (f a b) c = f (f a c) b) ->
  forall l l', Permutation l l' -> forall a, fold_left f l a = fold_left f l' a.
Proof.
  intros Hswap l l' Hperm.
  induction Hperm as [|v l l' _ IH|v w l|l l' l'' _ IH1 _ IH2]; intros a; cbn.
  - reflexivity.
  - apply IH.
  - now rewrite Hswap.
  - now rewrite IH1.
Qed.

Lemma Math_min_perm (l l' : list float) :
  Permutation l l' -> Math_min l = Math_min l'.
Proof.
  intros H. unfold Math_min. now apply fold_left_swap; [apply min_step_swap|].
Qed.

Lemma Math_max_perm (l l' : list float) :
  Permutation l l' -> Math_max l = Math_max l'.
Proof.
  intros H. unfold Math_max. now apply fold_left_swap; [apply max_step_swap|].
Qed.

(** Folding [min_step] over numbers yields the start value or an element,
    below which nothing lies. *)
Lemma fold_min_least (vs : list float) :
  Forall (fun v => is_nan v = false) vs ->
  forall acc, is_nan acc = false ->
    let m := fold_left min_step vs acc in
    is_nan m = false /\ (m = acc \/ In m vs) /\
    ~ below acc m /\ Forall (fun v => ~ below v m) vs.
Proof.
  induction 1 as [|v vs Hv Hvs IH]; intros acc Hacc; cbn.
  - repeat split; auto. intros H. exact (below_asym _ _ H H).
  - assert (Hstep : is_nan (min_step acc v) = false)
      by now rewrite min_step_is_nan, Hacc, Hv.
    destruct (IH _ Hstep) as (Hm & Hin & Hlow & Hall).
    set (m := fold_left min_step vs (min_step acc v)) in *.
    destruct (min_step_below acc v Hacc Hv) as [[L E]|[L E]];
      rewrite E in Hin, Hlow.
    + repeat split; auto.
      * destruct Hin as [->|Hin]; auto.
      * intros Hb. apply Hlow. exact (below_trans _ _ _ L Hb).
    + repeat split; auto.
      * destruct Hin as [->|Hin]; auto.
      * constructor; [|assumption].
        intros Hb.
        destruct (below_trichotomy v acc Hv Hacc) as [?|[->|Hlt]];
          [contradiction | contradiction |].
        apply Hlow. exact (below_trans _ _ _ Hlt Hb).
Qed.

Lemma fold_max_greatest (vs : list float) :
  Forall (fun v => is_nan v = false) vs ->
  forall acc, is_nan acc = false ->
    let m := fold_left max_step vs acc in
    is_nan m = false /\ (m = acc \/ In m vs) /\
    ~ below m acc /\ Forall (fun v => ~ below m v) vs.
Proof.
  induction 1 as [|v vs Hv Hvs IH]; intros acc Hacc; cbn.
  - repeat split; auto. intros H. exact (below_asym _ _ H H).
  - assert (Hstep : is_nan (max_step acc v) = false)
      by now rewrite max_step_is_nan, Hacc, Hv.
    destruct (IH _ Hstep) as (Hm & Hin & Hup & Hall).
    set (m := fold_left max_step vs (max_step acc v)) in *.
    destruct (max_step_below acc v Hacc Hv) as [[L E]|[L E]];
      rewrite E in Hin, Hup.
    + repeat split; auto.
      * destruct Hin as [->|Hin]; auto.
      * intros Hb. apply Hup. exact (below_trans _ _ _ Hb L).
    + repeat split; auto.
      * destruct Hin as [->|Hin]; auto.
      * constructor; [|assumption].
        intros Hb.
        destruct (below_trichotomy acc v Hacc Hv) as [?|[<-|Hlt]];
          [contradiction | contradiction |].
        apply Hup. exact (below_trans _ _ _ Hb Hlt).
Qed.

(** [Math.min] of a non-empty list of numbers is an element of the list that
    is [<=] every element; [Math.max] is an element that every element is
    [<=]. *)
Lemma Math_min_least (vs : list float) :
  vs <> [] -> Forall (fun v => is_nan v = false) vs ->
  In (Math_min vs) vs /\ Forall (fun v => (Math_min vs <=? v)%float = true) vs.
Proof.
  intros Hne Hvs.
  destruct (fold_min_least vs Hvs infinity eq_refl) as (Hm & Hin & _ & Hall).
  fold (Math_min vs) in *.
  split.
  - destruct Hin as [Hinf|Hin]; [|assumption].
    destruct vs as [|v vs]; [congruence|].
    inversion Hall as [|? ? Hv _]; inversion Hvs as [|? ? Hnan _]; subst.
    rewrite Hinf in Hv.
    destruct (below_trichotomy v infinity Hnan eq_refl) as [?|[->|Hb]].
    + contradiction.
    + rewrite Hinf. now left.
    + now apply below_infinity in Hb.
  - rewrite Forall_forall in *. intros v Hv.
    apply not_below_leb; auto.
Qed.

Lemma Math_max_greatest (vs : list float) :
  vs <> [] -> Forall (fun v => is_nan v = false) vs ->
  In (Math_max vs) vs /\ Forall (fun v => (v <=? Math_max vs)%float = true) vs.
Proof.
  intros Hne Hvs.
  destruct (fold_max_greatest vs Hvs neg_infinity eq_refl) as (Hm & Hin & _ & Hall).
  fold (Math_max vs) in *.
  split.
  - destruct Hin as [Hinf|Hin]; [|assumption].
    destruct vs as [|v vs]; [congruence|].
    inversion Hall as [|? ? Hv _]; inversion Hvs as [|? ? Hnan _]; subst.
    rewrite Hinf in Hv.
    destruct (below_trichotomy neg_infinity v eq_refl Hnan) as [?|[<-|Hb]].
    + contradiction.
    + rewrite Hinf. now left.
    + now apply below_neg_infinity in Hb.
  - rewrite Forall_forall in *. intros v Hv.
    apply not_below_leb; auto.
Qed.

(** ** Baseline bookkeeping *)

Section SessionFacts.

Variable round : float -> float.
Variable atan2 : float -> float -> float.

Local Abbreviation clone := (simpleCloneInputData round).
Local Abbreviation enrich := (computeInputData round atan2).

Lemma clone_length (d : RawInput) :
  List.length (Snapshot.pointers (simpleCloneInputData round d)) =
  List.length (pointers d).
Proof. unfold simpleCloneInputData; simpl. now rewrite length_map. Qed.

Lemma enrich_session (s : Session) (d : RawInput) :
  fst (computeInputData round atan2 s d) =
  storeFirstMultiple round (storeFirstInput round s d) d.
Proof. reflexivity. Qed.

Lemma storeFirstInput_firstMultiple (s : Session) (d : RawInput) :
  firstMultiple (storeFirstInput round s d) = firstMultiple s.
Proof. unfold storeFirstInput. now destruct (firstInput s). Qed.

Lemma storeFirstInput_set (s : Session) (d : RawInput) :
  firstInput (storeFirstInput round s d) =
  match firstInput s with
  | Some fi => Some fi
  | None => Some (simpleCloneInputData round d)
  end.
Proof.
  unfold storeFirstInput.
  destruct (firstInput s) eqn:Hfi; simpl; [assumption | reflexivity].
Qed.

Lemma storeFirstMultiple_firstInput (s : Session) (d : RawInput) :
  firstInput (storeFirstMultiple round s d) = firstInput s.
Proof.
  unfold storeFirstMultiple.
  destruct (_ && _); [reflexivity|].
  now destruct (_ =? 1).
Qed.

(** The three cases of the multi-pointer baseline update, by pointer
    count. *)
Lemma storeFirstMultiple_many_absent (s : Session) (d : RawInput) :
  1 < List.length (pointers d) -> firstMultiple s = None ->
  firstMultiple (storeFirstMultiple round s d) = Some (simpleCloneInputData round d).
Proof.
  intros Hlen Hnone. unfold storeFirstMultiple. rewrite Hnone.
  apply Nat.ltb_lt in Hlen. now rewrite Hlen.
Qed.

Lemma storeFirstMultiple_many_present (s : Session) (d : RawInput) (fm : Snapshot.t) :
  1 < List.length (pointers d) -> firstMultiple s = Some fm ->
  firstMultiple (storeFirstMultiple round s d) = Some fm.
Proof.
  intros Hlen Hsome. unfold storeFirstMultiple. rewrite Hsome.
  cbn [truthy negb]. rewrite andb_false_r.
  destruct (Nat.eqb_spec (List.length (pointers d)) 1); [lia | assumption].
Qed.

Lemma storeFirstMultiple_single (s : Session) (d : RawInput) :
  List.length (pointers d) = 1 ->
  firstMultiple (storeFirstMultiple round s d) = None.
Proof.
  intros Hlen. unfold storeFirstMultiple. rewrite Hlen. reflexivity.
Qed.

Lemma storeFirstMultiple_none (s : Session) (d : RawInput) :
  List.length (pointers d) = 0 ->
  storeFirstMultiple round s d = s.
Proof.
  intros Hlen. unfold storeFirstMultiple. rewrite Hlen. reflexivity.
Qed.

Lemma enrich_firstMultiple_many_absent (s : Session) (d : RawInput) :
  1 < List.length (pointers d) -> firstMultiple s = None ->
  firstMultiple (fst (enrich s d)) = Some (clone d).
Proof.
  intros. rewrite enrich_session.
  apply storeFirstMultiple_many_absent; [assumption|].
  now rewrite storeFirstInput_firstMultiple.
Qed.

Lemma enrich_firstMultiple_many_present (s : Session) (d : RawInput) (fm : Snapshot.t) :
  1 < List.length (pointers d) -> firstMultiple s = Some fm ->
  firstMultiple (fst (enrich s d)) = Some fm.
Proof.
  intros. rewrite enrich_session.
  apply storeFirstMultiple_many_present; [assumption|].
  now rewrite storeFirstInput_firstMultiple.
Qed.

Lemma enrich_firstMultiple_single (s : Session) (d : RawInput) :
  List.length (pointers d) = 1 -> firstMultiple (fst (enrich s d)) = None.
Proof.
  intros. rewrite enrich_session.
  now apply storeFirstMultiple_single.
Qed.

Lemma enrich_firstMultiple_none (s : Session) (d : RawInput) :
  List.length (pointers d) = 0 ->
  firstMultiple (fst (enrich s d)) = firstMultiple s.
Proof.
  intros. rewrite enrich_session.
  rewrite storeFirstMultiple_none by assumption.
  apply storeFirstInput_firstMultiple.
Qed.

Lemma enrich_firstInput (s : Session) (d : RawInput) :
  firstInput (fst (enrich s d)) =
  match firstInput s with
  | Some fi => Some fi
  | None => Some (clone d)
  end.
Proof.
  rewrite enrich_session, storeFirstMultiple_firstInput.
  apply storeFirstInput_set.
Qed.

Lemma enrichAll_snoc (s : Session) (ds : list RawInput) (d : RawInput) :
  enrichAll round atan2 s (ds ++ [d]) = fst (enrich (enrichAll round atan2 s ds) d).
Proof. unfold enrichAll. now rewrite fold_left_app. Qed.

Lemma enrichAll_cons (s : Session) (d : RawInput) (ds : list RawInput) :
  enrichAll round atan2 s (d :: ds) = enrichAll round atan2 (fst (enrich s d)) ds.
Proof. reflexivity. Qed.

Lemma multiSinceSingle_snoc_many (ds : list RawInput) (d : RawInput) :
  1 < List.length (pointers d) -> multiSinceSingle (ds ++ [d]).
Proof.
  intros Hlen. exists ds, d, []. repeat split; auto.
Qed.

Lemma multiSinceSingle_snoc_single (ds : list RawInput) (d : RawInput) :
  List.length (pointers d) = 1 -> ~ multiSinceSingle (ds ++ [d]).
Proof.
  intros Hlen (before & d0 & after & Heq & Hmany & Hafter).
  destruct after as [|a after' _] using rev_ind.
  - apply app_inj_tail in Heq. destruct Heq as [_ <-]. lia.
  - rewrite app_comm_cons, app_assoc in Heq.
    apply app_inj_tail in Heq. destruct Heq as [_ <-].
    apply Forall_app in Hafter. destruct Hafter as [_ Hd].
    inversion Hd; subst. contradiction.
Qed.

Lemma multiSinceSingle_snoc_none (ds : list RawInput) (d : RawInput) :
  List.length (pointers d) = 0 ->
  multiSinceSingle (ds ++ [d]) <-> multiSinceSingle ds.
Proof.
  intros Hlen. split.
  - intros (before & d0 & after & Heq & Hmany & Hafter).
    destruct after as [|a after' _] using rev_ind.
    + apply app_inj_tail in Heq. destruct Heq as [_ <-]. lia.
    + rewrite app_comm_cons, app_assoc in Heq.
      apply app_inj_tail in Heq. destruct Heq as [-> _].
      apply Forall_app in Hafter. destruct Hafter as [Hafter _].
      now exists before, d0, after'.
  - intros (before & d0 & after & -> & Hmany & Hafter).
    exists before, d0, (after ++ [d]). repeat split; auto.
    + now rewrite <- app_assoc.
    + apply Forall_app. split; [assumption|].
      constructor; [lia | constructor].
Qed.

Lemma firstMultiple_enrichAll (ds : list RawInput) :
  firstMultiple (enrichAll round atan2 emptySession ds) <> None <->
  multiSinceSingle ds.
Proof.
  induction ds as [|d ds IH] using rev_ind.
  - simpl. split; [congruence|].
    intros (before & d0 & after & Heq & _). now destruct before.
  - rewrite enrichAll_snoc.
    destruct (List.length (pointers d)) as [|[|n]] eqn:Hlen.
    + rewrite enrich_firstMultiple_none by assumption.
      now rewrite multiSinceSingle_snoc_none.
    + rewrite enrich_firstMultiple_single by assumption.
      split; [congruence|].
      intros H. now apply multiSinceSingle_snoc_single in H.
    + split; intros _.
      * apply multiSinceSingle_snoc_many. lia.
      * destruct (firstMultiple (enrichAll round atan2 emptySession ds)) eqn:Hfm.
        -- erewrite enrich_firstMultiple_many_present by (try eassumption; lia).
           congruence.
        -- rewrite enrich_firstMultiple_many_absent by (try assumption; lia).
           congruence.
Qed.

(** Every session that a gesture can reach keeps a multi-pointer baseline
    of at least two pointers. *)
Lemma enrich_baselineOk (s : Session) (d : RawInput) :
  baselineOk s -> baselineOk (fst (enrich s d)).
Proof.
  intros Hok fm.
  destruct (List.length (pointers d)) as [|[|n]] eqn:Hlen.
  - rewrite enrich_firstMultiple_none by assumption. apply Hok.
  - rewrite enrich_firstMultiple_single by assumption. congruence.
  - destruct (firstMultiple s) as [fm0|] eqn:Hfm.
    + erewrite enrich_firstMultiple_many_present by (try eassumption; lia).
      intros [= <-]. now apply Hok.
    + rewrite enrich_firstMultiple_many_absent by (try assumption; lia).
      intros [= <-]. rewrite clone_length. lia.
Qed.

Lemma enrichAll_baselineOk (s : Session) (ds : list RawInput) :
  baselineOk s -> baselineOk (enrichAll round atan2 s ds).
Proof.
  revert s. induction ds as [|d ds IH]; intros s Hok; [assumption|].
  rewrite enrichAll_cons. apply IH. now apply enrich_baselineOk.
Qed.

Lemma emptySession_baselineOk : baselineOk emptySession.
Proof. intros fm. simpl. congruence. Qed.

End SessionFacts.

(** ** The enrichment engine *)

Section EngineFacts.

Variable round : float -> float.
Variable atan2 : float -> float -> float.

Local Abbreviation clone := (simpleCloneInputData round).
Local Abbreviation enrich := (computeInputData round atan2).

Lemma index_length {A : Type} (l : list A) (i : nat) :
  i < List.length l -> exists a, index l i = Some a.
Proof.
  intros Hlt. unfold index.
  destruct (nth_error l i) eqn:Hnth; [now eexists|].
  apply nth_error_None in Hnth. lia.
Qed.

Lemma getScale_slots (start end_ : list Pointer) (s0 s1 e0 e1 : Pointer) :
  index start 0 = Some s0 -> index start 1 = Some s1 ->
  index end_ 0 = Some e0 -> index end_ 1 = Some e1 ->
  getScale start end_ =
  Normal (getDistance e0 e1 PROPS_CLIENT_XY / getDistance s0 s1 PROPS_CLIENT_XY)%float.
Proof.
  intros H0 H1 H2 H3. unfold getScale. now rewrite H0, H1, H2, H3.
Qed.

Lemma getRotation_slots (start end_ : list Pointer) (s0 s1 e0 e1 : Pointer) :
  index start 0 = Some s0 -> index start 1 = Some s1 ->
  index end_ 0 = Some e0 -> index end_ 1 = Some e1 ->
  getRotation atan2 start end_ =
  Normal (getAngle atan2 e1 e0 PROPS_CLIENT_XY - getAngle atan2 s1 s0 PROPS_CLIENT_XY)%float.
Proof.
  intros H0 H1 H2 H3. unfold getRotation. now rewrite H0, H1, H2, H3.
Qed.

(** After the baseline updates [firstInput] is always set. *)
Lemma enrich_firstInput_set (s : Session) (d : RawInput) :
  exists fi, firstInput (fst (enrich s d)) = Some fi.
Proof.
  rewrite enrich_firstInput.
  destruct (firstInput s); eauto.
Qed.

(** The result of an enrichment call, in terms of the session it leaves. *)
Lemma enrich_result (s : Session) (d : RawInput) (fi : Snapshot.t) :
  firstInput (fst (enrich s d)) = Some fi ->
  snd (enrich s d) =
  let fmul := firstMultiple (fst (enrich s d)) in
  let offsetCenter := match fmul with
                      | Some fm => Snapshot.center fm
                      | None => Snapshot.center fi
                      end in
  let cur := getCenter round (pointers d) in
  let ts := SrcEvent.timeStamp (srcEvent d) in
  do sc <- match fmul with
           | Some fm => getScale (Snapshot.pointers fm) (pointers d)
           | None => Normal 1%float
           end ;;
  do rot <- match fmul with
            | Some fm => getRotation atan2 (Snapshot.pointers fm) (pointers d)
            | None => Normal 0%float
            end ;;
  Normal {| timeStamp := ts;
            center := cur;
            angle := getAngle atan2 offsetCenter cur PROPS_XY;
            distance := getDistance offsetCenter cur PROPS_XY;
            direction := getDirection offsetCenter cur;
            velocity := 0.5%float;
            velocityX := 0.5%float;
            velocityY := 0.5%float;
            deltaTime := (ts - Snapshot.timeStamp fi)%float;
            deltaX := (x cur - x offsetCenter)%float;
            deltaY := (y cur - y offsetCenter)%float;
            scale := sc;
            rotation := rot |}.
Proof.
  unfold computeInputData. cbn [fst snd]. intros ->. reflexivity.
Qed.

(** With slots 0 and 1 of both lists present, the call delivers a sample
    whose scale and rotation come from those slots. *)
Lemma enrich_delivers_slots (s : Session) (d : RawInput) (fm : Snapshot.t)
      (f0 f1 c0 c1 : Pointer) :
  firstMultiple (fst (enrich s d)) = Some fm ->
  index (Snapshot.pointers fm) 0 = Some f0 ->
  index (Snapshot.pointers fm) 1 = Some f1 ->
  index (pointers d) 0 = Some c0 ->
  index (pointers d) 1 = Some c1 ->
  exists c, snd (enrich s d) = Normal c /\
            scale c = (getDistance c0 c1 PROPS_CLIENT_XY /
                       getDistance f0 f1 PROPS_CLIENT_XY)%float /\
            rotation c = (getAngle atan2 c1 c0 PROPS_CLIENT_XY -
                          getAngle atan2 f1 f0 PROPS_CLIENT_XY)%float.
Proof.
  intros Hsome Hf0 Hf1 Hc0 Hc1.
  destruct (enrich_firstInput_set s d) as [fi Hfi].
  pose proof (enrich_result s d fi Hfi) as Hres.
  cbv zeta in Hres. rewrite Hsome in Hres.
  rewrite (getScale_slots _ _ f0 f1 c0 c1) in Hres by assumption.
  rewrite (getRotation_slots _ _ f0 f1 c0 c1) in Hres by assumption.
  cbn [bindC] in Hres.
  eexists. split; [exact Hres|]. split; reflexivity.
Qed.

(** Under the input contract a present multi-pointer baseline means two
    pointers at least, stored and current. *)
Lemma enrich_present_bounds (s : Session) (d : RawInput) (fm : Snapshot.t) :
  baselineOk s -> wellFormed d ->
  firstMultiple (fst (enrich s d)) = Some fm ->
  2 <= List.length (Snapshot.pointers fm) /\ 2 <= List.length (pointers d).
Proof.
  intros Hok Hwf Hsome. split.
  - now apply (enrich_baselineOk round atan2 s d Hok).
  - unfold wellFormed in Hwf.
    destruct (List.length (pointers d)) as [|[|n]] eqn:Hlen; [lia| |lia].
    rewrite (enrich_firstMultiple_single round atan2 s d Hlen) in Hsome.
    discriminate.
Qed.

(** Under the input contract every enrichment call delivers a sample. *)
Lemma enrich_delivers (s : Session) (d : RawInput) :
  baselineOk s -> wellFormed d -> exists c, snd (enrich s d) = Normal c.
Proof.
  intros Hok Hwf.
  destruct (firstMultiple (fst (enrich s d))) as [fm|] eqn:Hfm.
  - destruct (enrich_present_bounds s d fm Hok Hwf Hfm) as [Hlf Hld].
    destruct (index_length (Snapshot.pointers fm) 0) as [f0 Hf0]; [lia|].
    destruct (index_length (Snapshot.pointers fm) 1) as [f1 Hf1]; [lia|].
    destruct (index_length (pointers d) 0) as [c0 Hc0]; [lia|].
    destruct (index_length (pointers d) 1) as [c1 Hc1]; [lia|].
    destruct (enrich_delivers_slots s d fm f0 f1 c0 c1) as [c [Hc _]]; auto.
    now exists c.
  - destruct (enrich_firstInput_set s d) as [fi Hfi].
    pose proof (enrich_result s d fi Hfi) as Hres.
    cbv zeta in Hres. rewrite Hfm in Hres. cbn [bindC] in Hres.
    eexists. exact Hres.
Qed.

(** What a delivered sample holds, apart from scale and rotation. *)
Lemma enrich_delivered (s : Session) (d : RawInput) (fi : Snapshot.t) (c : Computed) :
  firstInput (fst (enrich s d)) = Some fi ->
  snd (enrich s d) = Normal c ->
  let offsetCenter := match firstMultiple (fst (enrich s d)) with
                      | Some fm => Snapshot.center fm
                      | None => Snapshot.center fi
                      end in
  let cur := getCenter round (pointers d) in
  center c = cur /\
  angle c = getAngle atan2 offsetCenter cur PROPS_XY /\
  distance c = getDistance offsetCenter cur PROPS_XY /\
  direction c = getDirection offsetCenter cur /\
  deltaX c = (x cur - x offsetCenter)%float /\
  deltaY c = (y cur - y offsetCenter)%float /\
  deltaTime c = (SrcEvent.timeStamp (srcEvent d) - Snapshot.timeStamp fi)%float /\
  velocity c = 0.5%float /\ velocityX c = 0.5%float /\ velocityY c = 0.5%float.
Proof.
  intros Hfi Hrun.
  pose proof (enrich_result s d fi Hfi) as Hres.
  rewrite Hrun in Hres. cbv zeta in Hres.
  destruct (match firstMultiple (fst (enrich s d)) with
            | Some fm => getScale (Snapshot.pointers fm) (pointers d)
            | None => Normal 1%float
            end) as [sc|]; [|discriminate].
  destruct (match firstMultiple (fst (enrich s d)) with
            | Some fm => getRotation atan2 (Snapshot.pointers fm) (pointers d)
            | None => Normal 0%float
            end) as [rot|]; [|discriminate].
  cbn [bindC] in Hres. injection Hres as Hc. subst c. cbn.
  repeat split.
Qed.

(** C1. Within a gesture the multi-pointer baseline is present exactly
    when a sample with more than one pointer has been seen since the last
    sample with exactly one pointer: a sample with more than one pointer
    stores its own snapshot when the baseline is absent (and keeps a
    present one), a sample with exactly one pointer clears it, and after
    such a dip the next multi-pointer sample stores a snapshot of that
    later sample. *)
Theorem firstMultiple_lifecycle :
  (forall s d, 1 < List.length (pointers d) -> firstMultiple s = None ->
               firstMultiple (fst (enrich s d)) = Some (clone d)) /\
  (forall s d fm, 1 < List.length (pointers d) -> firstMultiple s = Some fm ->
                  firstMultiple (fst (enrich s d)) = Some fm) /\
  (forall s d, List.length (pointers d) = 1 ->
               firstMultiple (fst (enrich s d)) = None) /\
  (forall ds, firstMultiple (enrichAll round atan2 emptySession ds) <> None <->
              multiSinceSingle ds) /\
  (forall s d1 d2, List.length (pointers d1) = 1 ->
                   1 < List.length (pointers d2) ->
                   firstMultiple (enrichAll round atan2 s [d1; d2]) = Some (clone d2)).
Proof.
  split; [|split; [|split; [|split]]].
  - apply enrich_firstMultiple_many_absent.
  - apply enrich_firstMultiple_many_present.
  - apply enrich_firstMultiple_single.
  - apply firstMultiple_enrichAll.
  - intros s d1 d2 H1 H2.
    rewrite !enrichAll_cons. cbn [enrichAll fold_left].
    apply enrich_firstMultiple_many_absent; [assumption|].
    now apply enrich_firstMultiple_single.
Qed.

(** C2. After the baseline updates [firstInput] is set, and the offset
    center is the center of [firstMultiple] when that is present and the
    center of [firstInput] otherwise.  Under the input contract the call
    delivers a sample, and a delivered sample has its angle, distance and
    direction computed from (offset center, current center), its deltaX and
    deltaY equal to current center minus offset center, and its deltaTime
    equal to the sample's timestamp minus the timestamp of [firstInput],
    whichever baseline gives the offset. *)
Theorem enrich_offsets (s : Session) (d : RawInput) :
  exists fi,
    firstInput (fst (enrich s d)) = Some fi /\
    let offsetCenter := match firstMultiple (fst (enrich s d)) with
                        | Some fm => Snapshot.center fm
                        | None => Snapshot.center fi
                        end in
    let cur := getCenter round (pointers d) in
    (baselineOk s -> wellFormed d -> exists c, snd (enrich s d) = Normal c) /\
    (forall c,
        snd (enrich s d) = Normal c ->
        center c = cur /\
        angle c = getAngle atan2 offsetCenter cur PROPS_XY /\
        distance c = getDistance offsetCenter cur PROPS_XY /\
        direction c = getDirection offsetCenter cur /\
        deltaX c = (x cur - x offsetCenter)%float /\
        deltaY c = (y cur - y offsetCenter)%float /\
        deltaTime c =
        (SrcEvent.timeStamp (srcEvent d) - Snapshot.timeStamp fi)%float).
Proof.
  destruct (enrich_firstInput_set s d) as [fi Hfi].
  exists fi. split; [assumption|].
  split; [apply enrich_delivers|].
  intros c Hrun.
  pose proof (enrich_delivered s d fi c Hfi Hrun) as H. cbv zeta in H.
  intuition.
Qed.

(** C3. After the baseline updates: when [firstMultiple] is absent the
    call delivers scale 1 and rotation 0; when it is present, the call
    delivers scale = distance(current[0], current[1]) / distance(first[0],
    first[1]) and rotation = angle(current[1], current[0]) - angle(first[1],
    first[0]) over the client coordinates of slots 0 and 1 of
    [firstMultiple.pointers] and of the sample's pointers; in a gesture
    whose sample carries at least one pointer those slots exist. *)
Theorem enrich_scale_rotation :
  (forall s d,
      firstMultiple (fst (enrich s d)) = None ->
      exists c, snd (enrich s d) = Normal c /\
                scale c = 1%float /\ rotation c = 0%float) /\
  (forall s d fm f0 f1 c0 c1,
      firstMultiple (fst (enrich s d)) = Some fm ->
      index (Snapshot.pointers fm) 0 = Some f0 ->
      index (Snapshot.pointers fm) 1 = Some f1 ->
      index (pointers d) 0 = Some c0 ->
      index (pointers d) 1 = Some c1 ->
      exists c, snd (enrich s d) = Normal c /\
                scale c = (getDistance c0 c1 PROPS_CLIENT_XY /
                           getDistance f0 f1 PROPS_CLIENT_XY)%float /\
                rotation c = (getAngle atan2 c1 c0 PROPS_CLIENT_XY -
                              getAngle atan2 f1 f0 PROPS_CLIENT_XY)%float) /\
  (forall ds d fm,
      wellFormed d ->
      firstMultiple (fst (enrich (enrichAll round atan2 emptySession ds) d)) = Some fm ->
      exists f0 f1 c0 c1 c,
        index (Snapshot.pointers fm) 0 = Some f0 /\
        index (Snapshot.pointers fm) 1 = Some f1 /\
        index (pointers d) 0 = Some c0 /\
        index (pointers d) 1 = Some c1 /\
        snd (enrich (enrichAll round atan2 emptySession ds) d) = Normal c /\
        scale c = (getDistance c0 c1 PROPS_CLIENT_XY /
                   getDistance f0 f1 PROPS_CLIENT_XY)%float /\
        rotation c = (getAngle atan2 c1 c0 PROPS_CLIENT_XY -
                      getAngle atan2 f1 f0 PROPS_CLIENT_XY)%float).
Proof.
  split; [|split].
  - intros s d Hnone.
    destruct (enrich_firstInput_set s d) as [fi Hfi].
    pose proof (enrich_result s d fi Hfi) as Hres.
    cbv zeta in Hres. rewrite Hnone in Hres. cbn [bindC] in Hres.
    eexists. split; [exact Hres|]. split; reflexivity.
  - intros s d fm f0 f1 c0 c1. apply enrich_delivers_slots.
  - intros ds d fm Hwf Hsome.
    assert (Hok : baselineOk (enrichAll round atan2 emptySession ds))
      by apply enrichAll_baselineOk, emptySession_baselineOk.
    destruct (enrich_present_bounds _ d fm Hok Hwf Hsome) as [Hfm Hd].
    destruct (index_length (Snapshot.pointers fm) 0) as [f0 Hf0]; [lia|].
    destruct (index_length (Snapshot.pointers fm) 1) as [f1 Hf1]; [lia|].
    destruct (index_length (pointers d) 0) as [c0 Hc0]; [lia|].
    destruct (index_length (pointers d) 1) as [c1 Hc1]; [lia|].
    destruct (enrich_delivers_slots _ d fm f0 f1 c0 c1 Hsome Hf0 Hf1 Hc0 Hc1)
      as (c & Hc & Hs & Hr).
    exists f0, f1, c0, c1, c. repeat split; assumption.
Qed.

(** C9. Whatever the sample, the session and the history, a delivered
    sample carries velocity = velocityX = velocityY = 0.5, and under the
    input contract every call delivers a sample. *)
Theorem enrich_velocity_placeholder (s : Session) (d : RawInput) :
  (baselineOk s -> wellFormed d -> exists c, snd (enrich s d) = Normal c) /\
  (forall c,
      snd (enrich s d) = Normal c ->
      velocity c = 0.5%float /\ velocityX c = 0.5%float /\
      velocityY c = 0.5%float).
Proof.
  split; [apply enrich_delivers|].
  intros c Hrun.
  destruct (enrich_firstInput_set s d) as [fi Hfi].
  pose proof (enrich_delivered s d fi c Hfi Hrun) as H. cbv zeta in H.
  intuition.
Qed.

(** C10. In a gesture, for a sample that carries at least one pointer:
    whenever [firstMultiple] is present after the baseline updates (so
    scale and rotation are computed), the stored [firstMultiple.pointers]
    and the sample's pointers both hold at least two elements, slots 0 and
    1 of both exist, and scale and rotation are computed without error. *)
Theorem scale_rotation_in_bounds (ds : list RawInput) (d : RawInput) (fm : Snapshot.t) :
  wellFormed d ->
  let s := enrichAll round atan2 emptySession ds in
  firstMultiple (fst (enrich s d)) = Some fm ->
  2 <= List.length (Snapshot.pointers fm) /\
  2 <= List.length (pointers d) /\
  (exists f0 f1 c0 c1,
      index (Snapshot.pointers fm) 0 = Some f0 /\
      index (Snapshot.pointers fm) 1 = Some f1 /\
      index (pointers d) 0 = Some c0 /\
      index (pointers d) 1 = Some c1) /\
  (exists sc rot,
      getScale (Snapshot.pointers fm) (pointers d) = Normal sc /\
      getRotation atan2 (Snapshot.pointers fm) (pointers d) = Normal rot) /\
  exists c, snd (enrich s d) = Normal c.
Proof.
  intros Hwf s Hsome.
  assert (Hok : baselineOk s)
    by apply enrichAll_baselineOk, emptySession_baselineOk.
  destruct (enrich_present_bounds s d fm Hok Hwf Hsome) as [Hfm Hd].
  destruct (index_length (Snapshot.pointers fm) 0) as [f0 Hf0]; [lia|].
  destruct (index_length (Snapshot.pointers fm) 1) as [f1 Hf1]; [lia|].
  destruct (index_length (pointers d) 0) as [c0 Hc0]; [lia|].
  destruct (index_length (pointers d) 1) as [c1 Hc1]; [lia|].
  split; [assumption|]. split; [assumption|].
  split; [now exists f0, f1, c0, c1|].
  split.
  - eexists. eexists. split.
    + now apply (getScale_slots _ _ f0 f1 c0 c1).
    + now apply (getRotation_slots _ _ f0 f1 c0 c1).
  - now apply enrich_delivers.
Qed.

End EngineFacts.

(** ** The lifecycle classifier *)

Section HandlerFacts.

Variable round : float -> float.
Variable atan2 : float -> float -> float.

Local Abbreviation enrich := (computeInputData round atan2).
Local Abbreviation handle := (inputHandler round atan2).

Lemma same_count (d : RawInput) :
  (Z.of_nat (List.length (pointers d)) -
   Z.of_nat (List.length (changedPointers d)) =? 0)%Z = true <->
  List.length (pointers d) = List.length (changedPointers d).
Proof. rewrite Z.eqb_eq. lia. Qed.

Lemma handle_isFirst (inst : Instance) (et : Z) (d : RawInput) :
  isFirst (snd (handle inst et d)) =
  (et =? EVENT_START)%Z &&
  (Z.of_nat (List.length (pointers d)) -
   Z.of_nat (List.length (changedPointers d)) =? 0)%Z.
Proof.
  unfold inputHandler.
  now destruct (computeInputData _ _ _ _).
Qed.

Lemma handle_isFinal (inst : Instance) (et : Z) (d : RawInput) :
  isFinal (snd (handle inst et d)) =
  (et =? EVENT_END)%Z &&
  (Z.of_nat (List.length (pointers d)) -
   Z.of_nat (List.length (changedPointers d)) =? 0)%Z.
Proof.
  unfold inputHandler.
  now destruct (computeInputData _ _ _ _).
Qed.

(** The session the handler leaves: the enrichment of a fresh session on
    a first sample, of the current session otherwise. *)
Lemma handle_session (inst : Instance) (et : Z) (d : RawInput) :
  session (fst (handle inst et d)) =
  fst (enrich (if isFirst (snd (handle inst et d))
               then emptySession else session inst) d).
Proof.
  rewrite handle_isFirst.
  unfold inputHandler.
  destruct ((et =? EVENT_START)%Z); cbn [andb].
  - destruct ((_ - _ =? 0)%Z); cbn [session];
      now destruct (computeInputData _ _ _ _).
  - now destruct (computeInputData _ _ _ _).
Qed.

(** C5. The classifier sets isFirst exactly when the event kind is start
    and as many pointers are active as changed, and isFinal exactly when
    the event kind is end and as many pointers are active as changed; a
    cancel event never yields isFinal. *)
Theorem classifier_flags (inst : Instance) (et : Z) (d : RawInput) :
  let out := snd (handle inst et d) in
  (isFirst out = true <->
   et = EVENT_START /\
   List.length (pointers d) = List.length (changedPointers d)) /\
  (isFinal out = true <->
   et = EVENT_END /\
   List.length (pointers d) = List.length (changedPointers d)) /\
  (et = EVENT_CANCEL -> isFinal out = false).
Proof.
  intros out. unfold out.
  rewrite handle_isFirst, handle_isFinal.
  rewrite !andb_true_iff, !same_count, !Z.eqb_eq.
  split; [tauto|]. split; [tauto|].
  intros ->. reflexivity.
Qed.

(** The classification of a sample does not depend on the instance. *)
Lemma handle_isFirst_any (inst inst' : Instance) (et : Z) (d : RawInput) :
  isFirst (snd (handle inst et d)) = isFirst (snd (handle inst' et d)).
Proof. now rewrite !handle_isFirst. Qed.

Lemma enrich_keeps_firstInput (s : Session) (d : RawInput) (fi : Snapshot.t) :
  firstInput s = Some fi -> firstInput (fst (enrich s d)) = Some fi.
Proof. intros Hfi. now rewrite enrich_firstInput, Hfi. Qed.

Lemma enrichAll_keeps_firstInput (ds : list RawInput) (s : Session) (fi : Snapshot.t) :
  firstInput s = Some fi -> firstInput (enrichAll round atan2 s ds) = Some fi.
Proof.
  revert s. induction ds as [|d ds IH]; intros s Hfi; [assumption|].
  rewrite enrichAll_cons. apply IH. now apply enrich_keeps_firstInput.
Qed.

(** Samples that are not classified isFirst leave [firstInput] alone. *)
Lemma handleAll_keeps_firstInput (inst0 : Instance) (events : list (Z * RawInput)) :
  Forall (fun e => isFirst (snd (handle inst0 (fst e) (snd e))) = false) events ->
  forall inst fi,
    firstInput (session inst) = Some fi ->
    firstInput (session (handleAll round atan2 inst events)) = Some fi.
Proof.
  induction 1 as [|[et d] events Hnot _ IH]; intros inst fi Hfi; [assumption|].
  cbn [handleAll fold_left fst snd]. apply IH. cbn [fst snd] in Hnot.
  rewrite handle_session, (handle_isFirst_any inst inst0), Hnot.
  now apply enrich_keeps_firstInput.
Qed.

(** C6 (amended). The handler starts from a brand-new empty session
    exactly when the sample is classified isFirst and otherwise enriches the
    current session, whatever the event kind; [firstInput] is the snapshot
    of the first sample enriched in a gesture and no later call of the
    gesture reassigns it; a sample classified isFinal does not replace the
    session and keeps [firstInput]; it keeps [firstMultiple] unless it
    carries exactly one pointer, and then clears it by the rule of every
    single-pointer sample. *)
Theorem session_reset_only_on_first :
  (forall inst et d,
      let out := snd (handle inst et d) in
      let s' := session (fst (handle inst et d)) in
      (isFirst out = true -> s' = fst (enrich emptySession d)) /\
      (isFirst out = false -> s' = fst (enrich (session inst) d)) /\
      (et <> EVENT_START -> s' = fst (enrich (session inst) d)) /\
      (isFinal out = true ->
       s' = fst (enrich (session inst) d) /\
       (forall fi, firstInput (session inst) = Some fi ->
                   firstInput s' = Some fi) /\
       (forall fm, firstMultiple (session inst) = Some fm ->
                   List.length (pointers d) <> 1 ->
                   firstMultiple s' = Some fm) /\
       (List.length (pointers d) = 1 -> firstMultiple s' = None))) /\
  (forall inst et d events,
      isFirst (snd (handle inst et d)) = true ->
      Forall (fun e => isFirst (snd (handle inst (fst e) (snd e))) = false) events ->
      firstInput (session (handleAll round atan2 inst ((et, d) :: events))) =
      Some (simpleCloneInputData round d)) /\
  (forall d ds,
      firstInput (enrichAll round atan2 emptySession (d :: ds)) =
      Some (simpleCloneInputData round d)) /\
  (forall s d fi, firstInput s = Some fi ->
                  firstInput (fst (enrich s d)) = Some fi).
Proof.
  split; [|split; [|split]].
  - intros inst et d out s'. subst out s'.
    rewrite handle_session.
    split; [now intros ->|]. split; [now intros ->|].
    split.
    + intros Hkind. rewrite handle_isFirst.
      destruct (Z.eqb_spec et EVENT_START); [contradiction | reflexivity].
    + intros Hfinal.
      assert (Hnot : isFirst (snd (handle inst et d)) = false).
      { rewrite handle_isFinal in Hfinal. rewrite handle_isFirst.
        apply andb_true_iff in Hfinal. destruct Hfinal as [Hend _].
        apply Z.eqb_eq in Hend. subst et. reflexivity. }
      rewrite Hnot. split; [reflexivity|]. split; [|split].
      * intros fi. apply enrich_keeps_firstInput.
      * intros fm Hfm Hlen.
        destruct (List.length (pointers d)) as [|[|n]] eqn:Hcount.
        -- now rewrite (enrich_firstMultiple_none round atan2 _ _ Hcount).
        -- contradiction.
        -- apply (enrich_firstMultiple_many_present round atan2);
             [lia|assumption].
      * apply (enrich_firstMultiple_single round atan2).
  - intros inst et d events Hfirst Hrest.
    cbn [handleAll fold_left fst snd].
    apply (handleAll_keeps_firstInput inst events Hrest).
    now rewrite handle_session, Hfirst, enrich_firstInput.
  - intros d ds. rewrite enrichAll_cons. apply enrichAll_keeps_firstInput.
    now rewrite enrich_firstInput.
  - apply enrich_keeps_firstInput.
Qed.

End HandlerFacts.

(** ** The geometry primitives *)

Section GeometryFacts.

Variable round : float -> float.
Variable atan2 : float -> float -> float.

Local Abbreviation enrich := (computeInputData round atan2).

(** C4. [getDirection p1 p2] is decided by dx = p1.x - p2.x and
    dy = p1.y - p2.y: none when dx equals dy; otherwise, when |dx| >= |dy|,
    left for dx > 0 and right for dx <= 0; otherwise up for dy > 0 and down
    for dy <= 0.  In particular the direction from a point to itself is
    none, for every point of the data model ([pixel]: finite coordinates);
    from (0,0) to (10,0) it is right and from (0,0) to (-10,0) it is left. *)
Theorem getDirection_cases :
  (forall p1 p2,
      let dx := (x p1 - x p2)%float in
      let dy := (y p1 - y p2)%float in
      ((dx =? dy)%float = true -> getDirection p1 p2 = DIRECTION_NONE) /\
      ((dx =? dy)%float = false -> (abs dy <=? abs dx)%float = true ->
       (0 <? dx)%float = true -> getDirection p1 p2 = DIRECTION_LEFT) /\
      ((dx =? dy)%float = false -> (abs dy <=? abs dx)%float = true ->
       (dx <=? 0)%float = true -> getDirection p1 p2 = DIRECTION_RIGHT) /\
      ((dx =? dy)%float = false -> (abs dy <=? abs dx)%float = false ->
       (0 <? dy)%float = true -> getDirection p1 p2 = DIRECTION_UP) /\
      ((dx =? dy)%float = false -> (abs dy <=? abs dx)%float = false ->
       (dy <=? 0)%float = true -> getDirection p1 p2 = DIRECTION_DOWN)) /\
  (forall p, pixel p -> getDirection p p = DIRECTION_NONE) /\
  getDirection {| x := 0; y := 0 |} {| x := 10; y := 0 |} = DIRECTION_RIGHT /\
  getDirection {| x := 0; y := 0 |} {| x := -10; y := 0 |} = DIRECTION_LEFT.
Proof.
  split; [|split; [|split; reflexivity]].
  - intros p1 p2 dx dy. unfold getDirection. fold dx dy.
    repeat split.
    + now intros ->.
    + now intros -> -> ->.
    + intros -> -> Hle. now rewrite (leb_zero_not_pos _ Hle).
    + now intros -> -> ->.
    + intros -> -> Hle. now rewrite (leb_zero_not_pos _ Hle).
  - intros p [Hx Hy]. unfold getDirection.
    now rewrite (sub_diag _ Hx), (sub_diag _ Hy).
Qed.

(** C7. [getCenter] of a single pointer is the pointer's rounded client
    coordinates; of more than one pointer it is the rounded midpoint
    ((min_x + max_x) / 2, (min_y + max_y) / 2) of the bounding box, where
    the minimum and the maximum of a non-empty list of numbers are elements
    of the list that bound every element; and the center does not depend
    on the order of the pointers. *)
Theorem getCenter_bounding_box :
  (forall p,
      getCenter round [p] = {| x := round (clientX p); y := round (clientY p) |}) /\
  (forall ps,
      1 < List.length ps ->
      getCenter round ps =
      {| x := round ((Math_min (map clientX ps) + Math_max (map clientX ps)) / 2)%float;
         y := round ((Math_min (map clientY ps) + Math_max (map clientY ps)) / 2)%float |}) /\
  (forall vs,
      vs <> [] -> Forall (fun v => is_nan v = false) vs ->
      In (Math_min vs) vs /\ In (Math_max vs) vs /\
      Forall (fun v => (Math_min vs <=? v)%float = true /\
                       (v <=? Math_max vs)%float = true) vs) /\
  (forall ps ps', Permutation ps ps' -> getCenter round ps = getCenter round ps').
Proof.
  split; [|split; [|split]].
  - reflexivity.
  - intros [|p [|q ps]] Hlen; cbn in Hlen; try lia. reflexivity.
  - intros vs Hne Hvs.
    destruct (Math_min_least vs Hne Hvs) as [Hmin Hlow].
    destruct (Math_max_greatest vs Hne Hvs) as [Hmax Hup].
    split; [assumption|]. split; [assumption|].
    rewrite Forall_forall in *. auto.
  - intros ps ps' Hperm.
    assert (Hgen : forall l,
               List.length l <> 1 ->
               getCenter round l =
               {| x := round ((Math_min (map clientX l) + Math_max (map clientX l)) / 2)%float;
                  y := round ((Math_min (map clientY l) + Math_max (map clientY l)) / 2)%float |}).
    { intros [|p [|q l]] Hl; cbn in Hl; try lia; reflexivity. }
    destruct (Nat.eq_dec (List.length ps) 1) as [Hone|Hmany].
    + destruct ps as [|p [|q ps]]; try discriminate.
      apply Permutation_length_1_inv in Hperm. now subst.
    + rewrite (Hgen ps Hmany).
      rewrite (Hgen ps') by (now rewrite <- (Permutation_length Hperm)).
      rewrite (Math_min_perm _ _ (Permutation_map clientX Hperm)).
      rewrite (Math_max_perm _ _ (Permutation_map clientX Hperm)).
      rewrite (Math_min_perm _ _ (Permutation_map clientY Hperm)).
      rewrite (Math_max_perm _ _ (Permutation_map clientY Hperm)).
      reflexivity.
Qed.

Lemma getDistance_coincident (s0 s1 : Pointer) :
  coincident s0 s1 -> zeroOrNaN (getDistance s0 s1 PROPS_CLIENT_XY).
Proof.
  intros [Hx Hy]. unfold getDistance. cbn [fst snd PROPS_CLIENT_XY].
  apply sqrt_zeroOrNaN, add_zeroOrNaN; apply square_zeroOrNaN.
  - destruct (eqb_sub _ _ Hx) as [?|[? _]]; auto.
  - destruct (eqb_sub _ _ Hy) as [?|[? _]]; auto.
Qed.

Lemma getDistance_coincident_finite (s0 s1 : Pointer) :
  coincident s0 s1 ->
  is_finite (clientX s0) = true -> is_finite (clientY s0) = true ->
  getDistance s0 s1 PROPS_CLIENT_XY = 0%float.
Proof.
  intros [Hx Hy] Hfx Hfy. unfold getDistance. cbn [fst snd PROPS_CLIENT_XY].
  apply Prim2SF_inj. rewrite sqrt_spec, add_spec, !mul_spec, SF_zero.
  destruct (eqb_sub _ _ Hx) as [[sx ->]|[_ ?]]; [|congruence].
  destruct (eqb_sub _ _ Hy) as [[sy ->]|[_ ?]]; [|congruence].
  now destruct sx, sy.
Qed.

(** C8. When the two start pointers have equal client coordinates,
    [getScale] divides by the zero start distance without a guard: it
    raises no error and its result is not finite; the engine raises no
    error either and delivers that non-finite value as the sample's
    scale. *)
Theorem scale_zero_baseline :
  (forall start end_ s0 s1 e0 e1,
      index start 0 = Some s0 -> index start 1 = Some s1 ->
      index end_ 0 = Some e0 -> index end_ 1 = Some e1 ->
      coincident s0 s1 ->
      (is_finite (clientX s0) = true -> is_finite (clientY s0) = true ->
       getDistance s0 s1 PROPS_CLIENT_XY = 0%float) /\
      getScale start end_ =
      Normal (getDistance e0 e1 PROPS_CLIENT_XY /
              getDistance s0 s1 PROPS_CLIENT_XY)%float /\
      is_finite (getDistance e0 e1 PROPS_CLIENT_XY /
                 getDistance s0 s1 PROPS_CLIENT_XY) = false) /\
  (forall s d fm s0 s1 e0 e1,
      firstMultiple (fst (enrich s d)) = Some fm ->
      index (Snapshot.pointers fm) 0 = Some s0 ->
      index (Snapshot.pointers fm) 1 = Some s1 ->
      index (pointers d) 0 = Some e0 -> index (pointers d) 1 = Some e1 ->
      coincident s0 s1 ->
      exists c, snd (enrich s d) = Normal c /\
                scale c = (getDistance e0 e1 PROPS_CLIENT_XY /
                           getDistance s0 s1 PROPS_CLIENT_XY)%float /\
                is_finite (scale c) = false).
Proof.
  split.
  - intros start end_ s0 s1 e0 e1 Hs0 Hs1 He0 He1 Hco.
    split; [now apply getDistance_coincident_finite|].
    split; [now apply getScale_slots|].
    now apply div_zeroOrNaN, getDistance_coincident.
  - intros s d fm s0 s1 e0 e1 Hfm Hs0 Hs1 He0 He1 Hco.
    destruct (enrich_delivers_slots round atan2 s d fm s0 s1 e0 e1)
      as (c & Hc & Hscale & _); auto.
    exists c. split; [assumption|]. split; [assumption|].
    rewrite Hscale. now apply div_zeroOrNaN, getDistance_coincident.
Qed.

End GeometryFacts.


(** ** Further properties of the geometry primitives *)

(** *** Numbers: subtraction the other way round, signs, [d / d] *)

Lemma binary_round_aux_opp (s : bool) (m e : Z) (l : location) :
  binary_round_aux prec emax (negb s) m e l =
  SFopp (binary_round_aux prec emax s m e l).
Proof.
  unfold binary_round_aux.
  destruct (shr_fexp prec emax m e l) as [mrs' e'].
  destruct (shr_fexp prec emax _ e' loc_Exact) as [mrs'' e''].
  destruct (shr_m mrs'') as [|p|p]; try reflexivity.
  now destruct (Z.leb e'' (emax - prec)).
Qed.

Lemma binary_round_opp (s : bool) (m : positive) (e : Z) :
  binary_round prec emax (negb s) m e = SFopp (binary_round prec emax s m e).
Proof.
  unfold binary_round.
  destruct (shl_align m e _) as [mz ez]. apply binary_round_aux_opp.
Qed.

Lemma binary_normalize_opp (z e : Z) :
  z <> 0%Z ->
  binary_normalize prec emax (- z) e false =
  SFopp (binary_normalize prec emax z e false).
Proof.
  destruct z as [|p|p]; [congruence| |]; intros _; cbn [Z.opp binary_normalize].
  - apply (binary_round_opp false).
  - apply (binary_round_opp true).
Qed.

Lemma SFsub_swap (f g : spec_float) : mirrored (SF64sub f g) (SF64sub g f).
Proof.
  unfold mirrored, SF64sub.
  destruct f as [s1|s1| |s1 m1 e1], g as [s2|s2| |s2 m2 e2];
    try (left; reflexivity);
    try (destruct s1, s2; cbn; solve [left; reflexivity | right; eauto]);
    try (destruct s1; cbn; solve [left; reflexivity | right; eauto]);
    try (destruct s2; cbn; solve [left; reflexivity | right; eauto]).
  all: try (cbn; rewrite ?negb_involutive; left; reflexivity).
  unfold SFsub. rewrite (Z.min_comm e2 e1).
  set (ez := Z.min e1 e2).
  set (a := cond_Zopp s1 (Zpos (fst (shl_align m1 e1 ez)))).
  set (b := cond_Zopp s2 (Zpos (fst (shl_align m2 e2 ez)))).
  destruct (Z.eq_dec (a - b) 0) as [Hz|Hnz].
  - right. exists false, false.
    replace (b - a)%Z with 0%Z by lia. rewrite Hz. split; reflexivity.
  - left. replace (b - a)%Z with (- (a - b))%Z by lia.
    now apply binary_normalize_opp.
Qed.

(** [b - a] is the opposite of [a - b], the sign of a zero apart. *)
Lemma sub_swap (a b : float) : mirrored (Prim2SF (a - b)) (Prim2SF (b - a)).
Proof. rewrite !sub_spec. apply SFsub_swap. Qed.

Lemma SFmul_mirrored (f g : spec_float) :
  mirrored f g -> SF64mul g g = SF64mul f f.
Proof.
  intros [-> | (s & s' & -> & ->)].
  - destruct f as [s|s| |s m e]; cbn; try reflexivity;
      now rewrite ?negb_involutive; destruct s.
  - now destruct s, s'.
Qed.

Lemma square_swap (a b : float) :
  ((b - a) * (b - a) = (a - b) * (a - b))%float.
Proof.
  apply Prim2SF_inj. rewrite !mul_spec. apply SFmul_mirrored, sub_swap.
Qed.

Lemma binary_round_aux_unsigned (m e : Z) (l : location) :
  unsigned (binary_round_aux prec emax false m e l).
Proof.
  unfold binary_round_aux.
  destruct (shr_fexp prec emax m e l) as [mrs' e'].
  destruct (shr_fexp prec emax _ e' loc_Exact) as [mrs'' e''].
  destruct (shr_m mrs'') as [|p|p]; cbn; auto.
  match goal with |- context [if ?b then _ else _] => destruct b end;
    reflexivity.
Qed.

Lemma SFmul_self_unsigned (f : spec_float) : unsigned (SF64mul f f).
Proof.
  destruct f as [s|s| |s m e]; cbn; auto; try now destruct s.
  replace (xorb s s) with false by now destruct s.
  apply binary_round_aux_unsigned.
Qed.

Lemma SFadd_unsigned (f g : spec_float) :
  unsigned f -> unsigned g -> unsigned (SF64add f g).
Proof.
  destruct f as [s1|s1| |s1 m1 e1], g as [s2|s2| |s2 m2 e2]; cbn;
    intros; subst; cbn; auto.
  unfold binary_round.
  destruct (shl_align _ _ _) as [mz ez]. apply binary_round_aux_unsigned.
Qed.

Lemma SFsqrt_unsigned (f : spec_float) : unsigned f -> unsigned (SF64sqrt f).
Proof.
  destruct f as [s|s| |s m e]; cbn; intros; subst; cbn; auto.
  destruct (SFsqrt_core_binary prec emax (Z.pos m) e) as [[mz ez] lz].
  apply binary_round_aux_unsigned.
Qed.

Lemma SFdiv_core_self (m : positive) (e : Z) :
  SFdiv_core_binary prec emax (Z.pos m) e (Z.pos m) e =
  (9007199254740992, -53, loc_Exact)%Z.
Proof.
  unfold SFdiv_core_binary.
  rewrite !Z.sub_diag.
  change (Z.min (fexp prec emax 0) 0) with (-53)%Z.
  change (0 - -53)%Z with 53%Z. cbv beta iota zeta.
  rewrite Z.shiftl_mul_pow2 by lia.
  change (2 ^ 53)%Z with 9007199254740992%Z.
  rewrite (Z.mul_comm (Z.pos m)).
  pose proof (Z.div_mul 9007199254740992 (Z.pos m) ltac:(lia)) as Hq.
  pose proof (Z.mod_mul 9007199254740992 (Z.pos m) ltac:(lia)) as Hr.
  unfold Z.div, Z.modulo in Hq, Hr.
  destruct (Z.div_eucl (9007199254740992 * Z.pos m) (Z.pos m)) as [q r].
  subst q r. f_equal.
  unfold new_location. now destruct (Z.even (Z.pos m)).
Qed.

Lemma SFdiv_self (s : bool) (m : positive) (e : Z) :
  SF64div (S754_finite s m e) (S754_finite s m e) =
  S754_finite false 4503599627370496 (-52).
Proof.
  unfold SF64div, SFdiv. rewrite SFdiv_core_self.
  replace (xorb s s) with false by now destruct s.
  reflexivity.
Qed.

(** A finite number that is not zero, divided by itself, is exactly 1. *)
Lemma div_self (d : float) :
  is_finite d = true -> (d =? 0)%float = false -> (d / d = 1)%float.
Proof.
  intros Hfin Hnz. apply Prim2SF_inj. rewrite div_spec, SF_one.
  rewrite eqb_zero_SF in Hnz.
  apply is_finite_SF in Hfin.
  destruct Hfin as [[s Hd]|(s & m & e & Hd)]; rewrite Hd in *.
  - discriminate.
  - apply SFdiv_self.
Qed.

(** Rounding a non-negative integer never gives [NaN]. *)
Lemma iter_pos_inv {A : Type} (f : A -> A) (Inv : A -> Prop) :
  (forall a, Inv a -> Inv (f a)) ->
  forall n a, Inv a -> Inv (iter_pos f n a).
Proof.
  intros Hf. induction n as [n IH|n IH|]; intros a Ha; cbn; auto.
Qed.

Lemma shr_1_nonneg (mrs : shr_record) :
  (0 <= shr_m mrs)%Z -> (0 <= shr_m (shr_1 mrs))%Z.
Proof.
  destruct mrs as [m r s]. cbn.
  destruct m as [|[p|p|]|[p|p|]]; cbn; lia.
Qed.

Lemma shr_fexp_nonneg (m e : Z) (l : location) :
  (0 <= m)%Z -> (0 <= shr_m (fst (shr_fexp prec emax m e l)))%Z.
Proof.
  intros Hm. unfold shr_fexp, shr.
  assert (H0 : (0 <= shr_m (shr_record_of_loc m l))%Z)
    by (destruct l as [|[]]; exact Hm).
  destruct (fexp prec emax (Zdigits2 m + e) - e)%Z; cbn [fst]; try assumption.
  now apply (iter_pos_inv shr_1 (fun r => (0 <= shr_m r)%Z) shr_1_nonneg).
Qed.

Lemma binary_round_aux_not_nan (s : bool) (m e : Z) (l : location) :
  (0 <= m)%Z -> binary_round_aux prec emax s m e l <> S754_nan.
Proof.
  intros Hm. unfold binary_round_aux.
  pose proof (shr_fexp_nonneg m e l Hm) as H1.
  destruct (shr_fexp prec emax m e l) as [mrs' e']. cbn [fst] in H1.
  assert (H2 : (0 <= round_nearest_even (shr_m mrs') (loc_of_shr_record mrs'))%Z).
  { unfold round_nearest_even.
    destruct (loc_of_shr_record mrs') as [|[]]; try assumption; try lia.
    destruct (Z.even (shr_m mrs')); lia. }
  pose proof (shr_fexp_nonneg _ e' loc_Exact H2) as H3.
  destruct (shr_fexp prec emax _ e' loc_Exact) as [mrs'' e'']. cbn [fst] in H3.
  destruct (shr_m mrs'') as [|p|p]; try discriminate; [|lia].
  match goal with |- context [if ?b then _ else _] => destruct b end;
    discriminate.
Qed.

(** The difference of two finite numbers is a number. *)
Lemma sub_finite_not_nan (a b : float) :
  is_finite a = true -> is_finite b = true -> is_nan (a - b) = false.
Proof.
  intros Ha Hb. apply is_nan_false_SF. rewrite sub_spec.
  apply is_finite_SF in Ha, Hb.
  destruct Ha as [[s1 ->]|(s1 & m1 & e1 & ->)],
           Hb as [[s2 ->]|(s2 & m2 & e2 & ->)];
    try (destruct s1, s2; discriminate); try discriminate.
  unfold SF64sub, SFsub, binary_normalize, binary_round.
  destruct (_ - _)%Z as [|p|p]; try discriminate;
    destruct (shl_align p _ _) as [mz ez];
    now apply binary_round_aux_not_nan.
Qed.

Lemma getDirection_SF (p1 p2 : Point) :
  getDirection p1 p2 =
  directionSF (Prim2SF (x p1 - x p2)) (Prim2SF (y p1 - y p2)).
Proof.
  unfold getDirection, directionSF.
  now rewrite eqb_spec, leb_spec, !abs_spec, !ltb_spec, SF_zero.
Qed.

Lemma directionSF_opp (A B : spec_float) :
  A <> S754_nan -> B <> S754_nan ->
  directionSF (SFopp A) (SFopp B) = opposite (directionSF A B).
Proof.
  intros HA HB.
  destruct A as [s1|s1| |s1 m1 e1], B as [s2|s2| |s2 m2 e2]; try congruence;
    try (destruct s1, s2; reflexivity).
  unfold directionSF, SFeqb, SFleb, SFltb, SFabs, SFopp, SFcompare.
  rewrite (Z.compare_antisym e1 e2).
  change (Pos.compare_cont Eq m2 m1) with (Pos.compare m2 m1).
  change (Pos.compare_cont Eq m1 m2) with (Pos.compare m1 m2).
  rewrite (Pos.compare_antisym m1 m2).
  destruct s1, s2, (Z.compare e1 e2), (Pos.compare m1 m2); reflexivity.
Qed.

Lemma directionSF_zero (s : bool) (A : spec_float) :
  directionSF (S754_zero s) A = directionSF (S754_zero false) A /\
  directionSF A (S754_zero s) = directionSF A (S754_zero false).
Proof.
  split; destruct A as [s1|s1| |s1 m1 e1]; destruct s; try reflexivity;
    destruct s1; reflexivity.
Qed.

Lemma directionSF_mirrored (X Y X' Y' : spec_float) :
  X <> S754_nan -> Y <> S754_nan -> mirrored X X' -> mirrored Y Y' ->
  directionSF X' Y' = opposite (directionSF X Y).
Proof.
  intros HX HY HmX HmY.
  destruct HmX as [-> | (a & a' & -> & ->)], HmY as [-> | (b & b' & -> & ->)].
  - now apply directionSF_opp.
  - rewrite (proj2 (directionSF_zero b' _)), (proj2 (directionSF_zero b _)).
    change (S754_zero false) with (SFopp (S754_zero true)) at 1.
    rewrite directionSF_opp by congruence.
    now rewrite (proj2 (directionSF_zero true _)).
  - rewrite (proj1 (directionSF_zero a' _)), (proj1 (directionSF_zero a _)).
    change (S754_zero false) with (SFopp (S754_zero true)) at 1.
    rewrite directionSF_opp by congruence.
    now rewrite (proj1 (directionSF_zero true _)).
  - now destruct a, a', b, b'.
Qed.

Section GeometryMore.

Variable atan2 : float -> float -> float.

(** X1. The distance does not depend on the order of the two points,
    whatever the coordinates. *)
Theorem getDistance_sym {P : Type} (p1 p2 : P) (props : (P -> float) * (P -> float)) :
  getDistance p1 p2 props = getDistance p2 p1 props.
Proof.
  unfold getDistance. cbv zeta.
  now rewrite (square_swap (fst props p1)), (square_swap (snd props p1)).
Qed.

(** X2. The distance is never a negative number and never [-0]: it is
    [NaN] or has a clear sign bit. *)
Theorem getDistance_nonneg {P : Type} (p1 p2 : P) (props : (P -> float) * (P -> float)) :
  is_neg (getDistance p1 p2 props) = false /\
  (getDistance p1 p2 props <? 0)%float = false.
Proof.
  assert (H : unsigned (Prim2SF (getDistance p1 p2 props))).
  { unfold getDistance. cbv zeta. rewrite sqrt_spec, add_spec, !mul_spec.
    apply SFsqrt_unsigned, SFadd_unsigned; apply SFmul_self_unsigned. }
  split.
  - rewrite is_neg_SF. destruct (Prim2SF (getDistance p1 p2 props)); cbn in *; auto.
  - rewrite ltb_spec, SF_zero.
    destruct (Prim2SF (getDistance p1 p2 props)) as [s|s| |s m e];
      cbn in *; subst; reflexivity.
Qed.

(** X3. Seen from the other end the direction is the opposite one, for
    points with finite coordinates: left and right swap, up and down swap,
    none stays. *)
Theorem getDirection_reverse (p1 p2 : Point) :
  pixel p1 -> pixel p2 ->
  getDirection p2 p1 = opposite (getDirection p1 p2).
Proof.
  intros [Hx1 Hy1] [Hx2 Hy2]. rewrite !getDirection_SF.
  apply directionSF_mirrored.
  - apply is_nan_false_SF. now apply sub_finite_not_nan.
  - apply is_nan_false_SF. now apply sub_finite_not_nan.
  - apply sub_swap.
  - apply sub_swap.
Qed.

(** X4. A pointer pair compared with itself: when its two pointers are a
    finite, non-zero distance apart, the scale is exactly 1; when the angle
    between them is finite, the rotation is exactly 0; neither throws. *)
Theorem getScale_getRotation_self (start : list Pointer) (s0 s1 : Pointer) :
  index start 0 = Some s0 -> index start 1 = Some s1 ->
  (is_finite (getDistance s0 s1 PROPS_CLIENT_XY) = true ->
   (getDistance s0 s1 PROPS_CLIENT_XY =? 0)%float = false ->
   getScale start start = Normal 1%float) /\
  (is_finite (getAngle atan2 s1 s0 PROPS_CLIENT_XY) = true ->
   getRotation atan2 start start = Normal 0%float).
Proof.
  intros H0 H1. split.
  - intros Hfin Hnz.
    rewrite (getScale_slots start start s0 s1 s0 s1) by assumption.
    now rewrite div_self.
  - intros Hfin.
    rewrite (getRotation_slots atan2 start start s0 s1 s0 s1) by assumption.
    now rewrite sub_diag.
Qed.

End GeometryMore.

(** *** Subtraction of ordered numbers *)

Lemma digits2_pos_bounds (m : positive) :
  (2 ^ (Zpos (digits2_pos m) - 1) <= Zpos m < 2 ^ Zpos (digits2_pos m))%Z.
Proof.
  induction m as [m IH|m IH|]; cbn [digits2_pos].
  - rewrite Pos2Z.inj_succ.
    replace (Z.succ (Z.pos (digits2_pos m)) - 1)%Z with (Z.succ (Z.pos (digits2_pos m) - 1))%Z by lia.
    rewrite !Z.pow_succ_r by lia. lia.
  - rewrite Pos2Z.inj_succ.
    replace (Z.succ (Z.pos (digits2_pos m)) - 1)%Z with (Z.succ (Z.pos (digits2_pos m) - 1))%Z by lia.
    rewrite !Z.pow_succ_r by lia. lia.
  - cbn. lia.
Qed.

Lemma iter_xO (m d : positive) : Zpos (Pos.iter xO m d) = (Zpos m * 2 ^ Zpos d)%Z.
Proof.
  revert m. induction d as [|d IH] using Pos.peano_ind; intros m.
  - cbn. lia.
  - rewrite Pos.iter_succ, Pos2Z.inj_succ, Z.pow_succ_r by lia.
    rewrite Pos2Z.inj_xO, IH. lia.
Qed.

Lemma shl_align_value (m : positive) (e e' : Z) :
  (e' <= e)%Z ->
  Zpos (fst (shl_align m e e')) = (Zpos m * 2 ^ (e - e'))%Z.
Proof.
  intros Hle. unfold shl_align.
  destruct (e' - e)%Z as [|p|p] eqn:Hd; cbn [fst].
  - replace (e - e')%Z with 0%Z by lia. lia.
  - lia.
  - rewrite iter_xO. f_equal. f_equal. lia.
Qed.

(* lexicographic order of valid mantissas is the order of the aligned integers *)
Lemma aligned_le (m1 m2 : positive) (e1 e2 : Z) :
  bounded prec emax m1 e1 = true -> bounded prec emax m2 e2 = true ->
  (e1 < e2 \/ (e1 = e2 /\ (Zpos m1 <= Zpos m2)))%Z ->
  (Zpos (fst (shl_align m1 e1 (Z.min e2 e1))) <=
   Zpos (fst (shl_align m2 e2 (Z.min e2 e1))))%Z.
Proof.
  intros Hb1 Hb2 Hord.
  rewrite !shl_align_value by lia.
  destruct Hord as [Hlt|[-> Hle]].
  - rewrite Z.min_r by lia. rewrite Z.sub_diag, Z.pow_0_r, Z.mul_1_r.
    unfold bounded, canonical_mantissa, fexp in Hb1, Hb2.
    apply andb_true_iff in Hb1, Hb2. destruct Hb1 as [Hc1 _], Hb2 as [Hc2 _].
    apply Z.eqb_eq in Hc1, Hc2.
    pose proof (digits2_pos_bounds m1) as [_ Hu].
    pose proof (digits2_pos_bounds m2) as [Hl _].
    assert (Hd1 : (Zpos (digits2_pos m1) <= 53)%Z).
    { unfold SpecFloat.emin, emax, prec in *. lia. }
    assert (Hd2 : (Zpos (digits2_pos m2) = 53)%Z).
    { unfold SpecFloat.emin, emax, prec in *.
      assert (SpecFloat.emin prec emax <= e1)%Z by (unfold SpecFloat.emin, emax, prec; lia).
      unfold SpecFloat.emin, emax, prec in *. lia. }
    rewrite Hd2 in Hl.
    assert (Zpos m1 < 2 ^ 53)%Z.
    { eapply Z.lt_le_trans; [exact Hu|]. apply Z.pow_le_mono_r; lia. }
    assert (2 <= 2 ^ (e2 - e1))%Z.
    { change 2%Z with (2 ^ 1)%Z at 1. apply Z.pow_le_mono_r; lia. }
    change (2 ^ (53 - 1))%Z with 4503599627370496%Z in Hl.
    change (2 ^ 53)%Z with 9007199254740992%Z in *. nia.
  - rewrite Z.min_id, Z.sub_diag, Z.pow_0_r. lia.
Qed.

Lemma binary_normalize_nonneg (z e : Z) :
  (0 <= z)%Z -> unsigned (binary_normalize prec emax z e false).
Proof.
  destruct z as [|p|p]; intros Hz; [reflexivity| |lia].
  unfold binary_normalize, binary_round.
  destruct (shl_align p e _) as [mz ez]. apply binary_round_aux_unsigned.
Qed.

Lemma SFsub_ordered (A B : spec_float) :
  valid_binary A = true -> valid_binary B = true ->
  (forall s, A <> S754_infinity s) -> (forall s, B <> S754_infinity s) ->
  SFleb B A = true ->
  SFleb (S754_zero false) (SF64sub A B) = true.
Proof.
  intros HvA HvB HiA HiB Hle.
  destruct A as [sa|sa| |sa ma ea], B as [sb|sb| |sb mb eb];
    try (now exfalso; apply (HiA sa)); try (now exfalso; apply (HiB sb));
    try discriminate;
    try (destruct sa, sb; cbn in *; (reflexivity || discriminate)).
  assert (Hun : unsigned (SF64sub (S754_finite sa ma ea) (S754_finite sb mb eb))).
  { unfold SF64sub, SFsub. apply binary_normalize_nonneg.
    cbn [valid_binary] in HvA, HvB.
    unfold SFleb, SFcompare in Hle.
    change (Pos.compare_cont Eq mb ma) with (Pos.compare mb ma) in Hle.
    destruct sa, sb; cbn [cond_Zopp]; try discriminate.
    - (* both negative *)
      assert (H : (Z.pos (fst (shl_align ma ea (Z.min eb ea))) <=
                   Z.pos (fst (shl_align mb eb (Z.min eb ea))))%Z).
      { apply aligned_le; try assumption.
        destruct (Z.compare_spec eb ea); try discriminate; [right|left; lia].
        split; [lia|].
        destruct (Pos.compare_spec mb ma); try discriminate; cbn in *; lia. }
      rewrite (Z.min_comm ea eb). lia.
    - assert (H : (Z.pos (fst (shl_align mb eb (Z.min ea eb))) <=
                   Z.pos (fst (shl_align ma ea (Z.min ea eb))))%Z).
      { apply aligned_le; try assumption.
        destruct (Z.compare_spec eb ea); try discriminate; [right|left; lia].
        split; [lia|].
        destruct (Pos.compare_spec mb ma); try discriminate; lia. }
      lia. }
  assert (Hnn : SF64sub (S754_finite sa ma ea) (S754_finite sb mb eb) <> S754_nan).
  { unfold SF64sub, SFsub, binary_normalize, binary_round.
    destruct (_ - _)%Z as [|p|p]; try discriminate;
      destruct (shl_align p _ _) as [mz ez];
      now apply binary_round_aux_not_nan. }
  destruct (SF64sub _ _) as [s|s| |s m e]; cbn in Hun; subst;
    try reflexivity.
  now elim Hnn.
Qed.

(** Subtracting a finite number from a finite number that is not below it
    never gives a negative number. *)
Lemma sub_ordered (a b : float) :
  is_finite a = true -> is_finite b = true -> (b <=? a)%float = true ->
  (0 <=? a - b)%float = true.
Proof.
  intros Ha Hb Hle. rewrite leb_spec in Hle |- *.
  rewrite sub_spec, SF_zero. apply SFsub_ordered; try assumption.
  - apply Prim2SF_valid.
  - apply Prim2SF_valid.
  - intros s E. apply is_finite_SF in Ha.
    destruct Ha as [[s1 H]|(s1 & m1 & e1 & H)]; congruence.
  - intros s E. apply is_finite_SF in Hb.
    destruct Hb as [[s1 H]|(s1 & m1 & e1 & H)]; congruence.
Qed.

(** ** Further properties of the engine and the handler *)

(** *** [Math.min] and [Math.max] on a repeated value *)

Lemma is_nan_eq (v : float) : is_nan v = true -> v = nan.
Proof. intros H. apply Prim2SF_inj. now apply is_nan_SF in H. Qed.

Lemma fold_min_is_nan (vs : list float) (acc : float) :
  is_nan (fold_left min_step vs acc) = is_nan acc || existsb is_nan vs.
Proof.
  revert acc. induction vs as [|v vs IH]; intros acc; cbn.
  - now rewrite orb_false_r.
  - now rewrite IH, min_step_is_nan, orb_assoc.
Qed.

Lemma fold_max_is_nan (vs : list float) (acc : float) :
  is_nan (fold_left max_step vs acc) = is_nan acc || existsb is_nan vs.
Proof.
  revert acc. induction vs as [|v vs IH]; intros acc; cbn.
  - now rewrite orb_false_r.
  - now rewrite IH, max_step_is_nan, orb_assoc.
Qed.

Lemma existsb_is_nan_false (vs : list float) :
  existsb is_nan vs = false -> Forall (fun v => is_nan v = false) vs.
Proof.
  induction vs as [|v vs IH]; cbn; [constructor|].
  intros H. apply orb_false_iff in H. destruct H. constructor; auto.
Qed.

Lemma Math_min_repeat (v : float) (vs : list float) :
  In v vs -> Math_min (v :: vs) = Math_min vs.
Proof.
  intros Hin.
  rewrite (Math_min_perm (v :: vs) (vs ++ [v])) by apply Permutation_cons_append.
  unfold Math_min. rewrite fold_left_app. cbn [fold_left].
  fold (Math_min vs).
  destruct (is_nan (Math_min vs)) eqn:Hm.
  - rewrite min_step_nan by auto. symmetry. now apply is_nan_eq.
  - unfold Math_min in Hm. rewrite fold_min_is_nan in Hm. cbn [is_nan orb] in Hm.
    change (is_nan infinity) with false in Hm. cbn [orb] in Hm.
    apply existsb_is_nan_false in Hm.
    destruct (fold_min_least vs Hm infinity eq_refl) as (Hnan & _ & _ & Hall).
    fold (Math_min vs) in *.
    rewrite Forall_forall in Hall, Hm.
    destruct (min_step_below (Math_min vs) v Hnan (Hm v Hin)) as [[L _]|[_ E]].
    + now apply Hall in L.
    + exact E.
Qed.

Lemma Math_max_repeat (v : float) (vs : list float) :
  In v vs -> Math_max (v :: vs) = Math_max vs.
Proof.
  intros Hin.
  rewrite (Math_max_perm (v :: vs) (vs ++ [v])) by apply Permutation_cons_append.
  unfold Math_max. rewrite fold_left_app. cbn [fold_left].
  fold (Math_max vs).
  destruct (is_nan (Math_max vs)) eqn:Hm.
  - rewrite max_step_nan by auto. symmetry. now apply is_nan_eq.
  - unfold Math_max in Hm. rewrite fold_max_is_nan in Hm.
    change (is_nan neg_infinity) with false in Hm. cbn [orb] in Hm.
    apply existsb_is_nan_false in Hm.
    destruct (fold_max_greatest vs Hm neg_infinity eq_refl) as (Hnan & _ & _ & Hall).
    fold (Math_max vs) in *.
    rewrite Forall_forall in Hall, Hm.
    destruct (max_step_below (Math_max vs) v Hnan (Hm v Hin)) as [[L _]|[_ E]].
    + now apply Hall in L.
    + exact E.
Qed.

(** ** Further properties of the engine *)

Section EngineMore.

Variable round : float -> float.
Variable atan2 : float -> float -> float.

Local Abbreviation clone := (simpleCloneInputData round).
Local Abbreviation enrich := (computeInputData round atan2).
Local Abbreviation handle := (inputHandler round atan2).

(** X5. A pointer at the position of one that is already listed does not
    move the center of two or more pointers. *)
Theorem getCenter_repeat (p : Pointer) (ps : list Pointer) :
  In p ps -> 2 <= List.length ps ->
  getCenter round (p :: ps) = getCenter round ps.
Proof.
  intros Hin Hlen.
  destruct ps as [|q [|q' ps]]; cbn in Hlen; try lia.
  unfold getCenter.
  change (map clientX (p :: q :: q' :: ps))
    with (clientX p :: map clientX (q :: q' :: ps)).
  change (map clientY (p :: q :: q' :: ps))
    with (clientY p :: map clientY (q :: q' :: ps)).
  rewrite !Math_min_repeat, !Math_max_repeat by now apply in_map.
  reflexivity.
Qed.

Lemma getScale_throws (start end_ : list Pointer) :
  getScale start end_ = Throw TypeError <->
  List.length start < 2 \/ List.length end_ < 2.
Proof.
  destruct start as [|a [|b l]], end_ as [|c [|d l']]; cbn;
    split; intros H; try reflexivity; try discriminate; try lia.
Qed.

Lemma getRotation_throws (start end_ : list Pointer) :
  getRotation atan2 start end_ = Throw TypeError <->
  List.length start < 2 \/ List.length end_ < 2.
Proof.
  destruct start as [|a [|b l]], end_ as [|c [|d l']]; cbn;
    split; intros H; try reflexivity; try discriminate; try lia.
Qed.

(** X17. Swapping the two pointer sets undoes a rotation: the call throws
    for the swapped sets exactly when it throws for the given ones, and
    otherwise the two rotations are opposite numbers (the sign of a zero
    apart; [NaN] stays [NaN]). *)
Theorem getRotation_swap (start end_ : list Pointer) :
  match getRotation atan2 start end_, getRotation atan2 end_ start with
  | Normal r, Normal r' => mirrored (Prim2SF r) (Prim2SF r')
  | Throw _, Throw _ => True
  | _, _ => False
  end.
Proof.
  destruct start as [|a [|b l]], end_ as [|c [|d l']]; cbn; trivial.
  apply sub_swap.
Qed.

Lemma completion_cases {A : Type} (c : Completion A) :
  (exists a, c = Normal a) \/ c = Throw TypeError.
Proof. destruct c as [a|[]]; eauto. Qed.

(** X6. The engine throws exactly when a multi-pointer baseline is present
    after the baseline updates and the stored or the current pointer list
    has fewer than two pointers; in a gesture that is exactly when a sample
    without pointers arrives while a multi-pointer baseline is stored; such
    a sample leaves a session that has its first input as it was. *)
Theorem enrich_throws_iff :
  (forall s d,
      snd (enrich s d) = Throw TypeError <->
      exists fm, firstMultiple (fst (enrich s d)) = Some fm /\
                 (List.length (Snapshot.pointers fm) < 2 \/
                  List.length (pointers d) < 2)) /\
  (forall ds d,
      snd (enrich (enrichAll round atan2 emptySession ds) d) = Throw TypeError <->
      firstMultiple (enrichAll round atan2 emptySession ds) <> None /\
      pointers d = []) /\
  (forall s d,
      firstInput s <> None -> pointers d = [] -> fst (enrich s d) = s).
Proof.
  assert (Hgen : forall s d,
      snd (enrich s d) = Throw TypeError <->
      exists fm, firstMultiple (fst (enrich s d)) = Some fm /\
                 (List.length (Snapshot.pointers fm) < 2 \/
                  List.length (pointers d) < 2)).
  { intros s d.
    destruct (enrich_firstInput_set round atan2 s d) as [fi Hfi].
    rewrite (enrich_result round atan2 s d fi Hfi). cbv zeta.
    destruct (firstMultiple (fst (enrich s d))) as [fm|].
    - destruct (completion_cases (getScale (Snapshot.pointers fm) (pointers d)))
        as [[sc Hs]|Hs].
      + assert (Hn : ~ (List.length (Snapshot.pointers fm) < 2 \/
                        List.length (pointers d) < 2)).
        { intros H. apply getScale_throws in H. congruence. }
        destruct (completion_cases
                    (getRotation atan2 (Snapshot.pointers fm) (pointers d)))
          as [[rot Hr]|Hr].
        * rewrite Hs, Hr. cbn [bindC]. split; [discriminate|].
          intros (fm' & [= <-] & H). contradiction.
        * apply getRotation_throws in Hr. contradiction.
      + rewrite Hs. cbn [bindC]. split; [|reflexivity].
        intros _. exists fm. split; [reflexivity|]. now apply getScale_throws.
    - cbn [bindC]. split; [discriminate|]. intros (fm & H & _). discriminate. }
  split; [exact Hgen|]. split; cycle 1.
  { intros s d Hfi Hnil.
    rewrite enrich_session, storeFirstMultiple_none by now rewrite Hnil.
    unfold storeFirstInput. now destruct (firstInput s). }
  intros ds d. rewrite Hgen.
  set (s := enrichAll round atan2 emptySession ds).
  assert (Hok : baselineOk s)
    by apply enrichAll_baselineOk, emptySession_baselineOk.
  split.
  - intros (fm & Hfm & Hshort).
    pose proof (enrich_baselineOk round atan2 s d Hok fm Hfm) as Hstored.
    destruct Hshort as [Hshort|Hshort]; [lia|].
    destruct (List.length (pointers d)) as [|[|n]] eqn:Hlen; [| |lia].
    + rewrite (enrich_firstMultiple_none round atan2 s d Hlen) in Hfm.
      split; [congruence|]. now apply length_zero_iff_nil.
    + rewrite (enrich_firstMultiple_single round atan2 s d Hlen) in Hfm.
      discriminate.
  - intros [Hsome Hnil].
    destruct (firstMultiple s) as [fm|] eqn:Hfm; [|congruence].
    exists fm. split.
    + rewrite (enrich_firstMultiple_none round atan2 s d); [assumption|].
      now rewrite Hnil.
    + right. rewrite Hnil. cbn. lia.
Qed.

Lemma enrich_snd_of_fst (s1 s2 : Session) (d : RawInput) :
  fst (enrich s1 d) = fst (enrich s2 d) -> snd (enrich s1 d) = snd (enrich s2 d).
Proof.
  unfold computeInputData. cbn [fst snd]. now intros ->.
Qed.

(** X7. Enriching the same sample a second time changes nothing: the
    session stays as the first call left it and the result is the same. *)
Theorem enrich_idempotent (s : Session) (d : RawInput) :
  enrich (fst (enrich s d)) d = enrich s d.
Proof.
  assert (Hfst : fst (enrich (fst (enrich s d)) d) = fst (enrich s d)).
  { destruct (enrich_firstInput_set round atan2 s d) as [fi Hfi].
    set (s' := fst (enrich s d)) in *.
    assert (H1 : firstInput (fst (enrich s' d)) = firstInput s')
      by now rewrite enrich_firstInput, Hfi.
    assert (H2 : firstMultiple (fst (enrich s' d)) = firstMultiple s').
    { destruct (List.length (pointers d)) as [|[|n]] eqn:Hlen.
      - now apply enrich_firstMultiple_none.
      - rewrite (enrich_firstMultiple_single round atan2 s' d Hlen).
        symmetry. now apply enrich_firstMultiple_single.
      - destruct (firstMultiple s) as [fm|] eqn:Hfm.
        + assert (Hs' : firstMultiple s' = Some fm)
            by (apply enrich_firstMultiple_many_present; [lia|assumption]).
          rewrite Hs'.
          apply enrich_firstMultiple_many_present; [lia|assumption].
        + assert (Hs' : firstMultiple s' = Some (clone d))
            by (apply enrich_firstMultiple_many_absent; [lia|assumption]).
          rewrite Hs'.
          apply enrich_firstMultiple_many_present; [lia|assumption]. }
    destruct (fst (enrich s' d)) as [a b], s' as [a' b']. cbn in *. congruence. }
  rewrite (surjective_pairing (enrich (fst (enrich s d)) d)).
  rewrite (surjective_pairing (enrich s d)) at 3.
  f_equal; [assumption|]. now apply enrich_snd_of_fst.
Qed.

(** X8. No sample is classified both first and final; a move or a cancel
    event is classified neither. *)
Theorem classifier_exclusive (inst : Instance) (et : Z) (d : RawInput) :
  let out := snd (handle inst et d) in
  (isFirst out = true -> isFinal out = false) /\
  (isFinal out = true -> isFirst out = false) /\
  (et = EVENT_MOVE \/ et = EVENT_CANCEL ->
   isFirst out = false /\ isFinal out = false).
Proof.
  intros out. unfold out. rewrite handle_isFirst, handle_isFinal.
  split; [|split].
  - intros H. apply andb_true_iff in H. destruct H as [H _].
    apply Z.eqb_eq in H. subst et. reflexivity.
  - intros H. apply andb_true_iff in H. destruct H as [H _].
    apply Z.eqb_eq in H. subst et. reflexivity.
  - intros [-> | ->]; split; reflexivity.
Qed.

(** X9. What the handler does with a sample classified first depends on
    nothing that happened before: the session it leaves and the enriched
    sample are the same from every instance. *)
Theorem first_sample_forgets (inst inst' : Instance) (et : Z) (d : RawInput) :
  isFirst (snd (handle inst et d)) = true ->
  handle inst et d = handle inst' et d.
Proof.
  rewrite handle_isFirst. intros Hfirst.
  unfold inputHandler.
  apply andb_true_iff in Hfirst. destruct Hfirst as [Hstart Hcount].
  rewrite Hstart, Hcount. cbn [andb session]. reflexivity.
Qed.

Lemma wholePixels_clone (d : RawInput) :
  wholePixels round (pointers d) ->
  Snapshot.pointers (clone d) = pointers d /\
  Snapshot.center (clone d) = getCenter round (pointers d).
Proof.
  intros Hwhole.
  assert (Hmap : map (fun pointer => {| clientX := round (clientX pointer);
                                        clientY := round (clientY pointer) |})
                     (pointers d) = pointers d).
  { induction Hwhole as [|[cx cy] ps [Hx Hy] _ IH]; cbn in *; [reflexivity|].
    now rewrite Hx, Hy, IH. }
  unfold simpleCloneInputData. cbn. now rewrite Hmap.
Qed.

Lemma getDistance_self (p : Point) :
  pixel p -> getDistance p p PROPS_XY = 0%float.
Proof.
  intros [Hx Hy]. unfold getDistance. cbn [fst snd PROPS_XY].
  now rewrite (sub_diag _ Hx), (sub_diag _ Hy).
Qed.

(** A delivered sample whose offset baseline is the snapshot of the sample
    itself reports no displacement. *)
Lemma own_baseline_no_displacement (s : Session) (d : RawInput) (c : Computed) :
  wholePixels round (pointers d) ->
  pixel (getCenter round (pointers d)) ->
  (firstMultiple (fst (enrich s d)) = Some (clone d) \/
   (firstMultiple (fst (enrich s d)) = None /\
    firstInput (fst (enrich s d)) = Some (clone d))) ->
  snd (enrich s d) = Normal c ->
  deltaX c = 0%float /\ deltaY c = 0%float /\
  distance c = 0%float /\ direction c = DIRECTION_NONE.
Proof.
  intros Hwhole Hpix Hbase Hrun.
  destruct (wholePixels_clone d Hwhole) as [_ Hcenter].
  destruct (enrich_firstInput_set round atan2 s d) as [fi Hfi].
  pose proof (enrich_delivered round atan2 s d fi c Hfi Hrun) as H.
  cbv zeta in H.
  destruct H as (_ & _ & Hdist & Hdir & Hdx & Hdy & _).
  assert (Hoff : match firstMultiple (fst (enrich s d)) with
                 | Some fm => Snapshot.center fm
                 | None => Snapshot.center fi
                 end = getCenter round (pointers d)).
  { destruct Hbase as [-> | [-> Hfirst]]; [assumption|].
    rewrite Hfirst in Hfi. injection Hfi as <-. assumption. }
  rewrite Hoff in *.
  destruct Hpix as [Hx Hy].
  rewrite Hdx, Hdy, Hdist, Hdir, (sub_diag _ Hx), (sub_diag _ Hy).
  repeat split.
  - now apply getDistance_self.
  - unfold getDirection. now rewrite (sub_diag _ Hx), (sub_diag _ Hy).
Qed.

Lemma handle_computed (inst : Instance) (et : Z) (d : RawInput) :
  computed (snd (handle inst et d)) =
  snd (enrich (if isFirst (snd (handle inst et d))
               then emptySession else session inst) d).
Proof.
  rewrite handle_isFirst.
  unfold inputHandler.
  destruct ((et =? EVENT_START)%Z); cbn [andb].
  - destruct ((_ - _ =? 0)%Z); cbn [session];
      now destruct (computeInputData _ _ _ _).
  - now destruct (computeInputData _ _ _ _).
Qed.

Lemma handleAll_session (inst0 : Instance) (events : list (Z * RawInput)) :
  Forall (fun e => isFirst (snd (handle inst0 (fst e) (snd e))) = false) events ->
  forall inst,
    session (handleAll round atan2 inst events) =
    enrichAll round atan2 (session inst) (map snd events).
Proof.
  induction 1 as [|[et d] events Hnot _ IH]; intros inst; [reflexivity|].
  cbn [handleAll fold_left fst snd map]. rewrite enrichAll_cons.
  cbn [fst snd] in Hnot.
  rewrite <- (handle_isFirst_any round atan2 inst inst0 et d) in Hnot.
  change (fold_left _ events ?i) with (handleAll round atan2 i events).
  rewrite IH, handle_session, Hnot. reflexivity.
Qed.

(** X16. The handler runs the engine over a gesture: after a sample
    classified first and any number of samples that are not, the session of
    the instance is what the engine leaves when it is run from the empty
    session over the samples of the gesture, and a further sample that is
    not classified first gets the engine's result in that session. *)
Theorem handleAll_gesture
        (inst : Instance) (et0 : Z) (d0 : RawInput) (events : list (Z * RawInput)) :
  isFirst (snd (handle inst et0 d0)) = true ->
  Forall (fun e => isFirst (snd (handle inst (fst e) (snd e))) = false) events ->
  session (handleAll round atan2 inst ((et0, d0) :: events)) =
  enrichAll round atan2 emptySession (d0 :: map snd events) /\
  forall et d,
    isFirst (snd (handle inst et d)) = false ->
    computed (snd (handle (handleAll round atan2 inst ((et0, d0) :: events)) et d)) =
    snd (enrich (enrichAll round atan2 emptySession (d0 :: map snd events)) d).
Proof.
  intros Hfirst Hrest.
  assert (Hs : session (handleAll round atan2 inst ((et0, d0) :: events)) =
               enrichAll round atan2 emptySession (d0 :: map snd events)).
  { cbn [handleAll fold_left fst snd].
    change (fold_left _ events ?i) with (handleAll round atan2 i events).
    rewrite (handleAll_session inst events Hrest), handle_session, Hfirst.
    reflexivity. }
  split; [exact Hs|].
  intros et d Hnot.
  rewrite handle_computed, (handle_isFirst_any round atan2 _ inst), Hnot, Hs.
  reflexivity.
Qed.

(** X10. The first sample of a gesture reports no movement: when it
    carries at least one pointer, at whole-pixel coordinates with a finite
    center and a finite timestamp, the handler delivers it with deltaX =
    deltaY = 0, distance 0, direction none and deltaTime 0. *)
Theorem first_sample_at_rest (inst : Instance) (et : Z) (d : RawInput) :
  isFirst (snd (handle inst et d)) = true ->
  wellFormed d ->
  wholePixels round (pointers d) ->
  pixel (getCenter round (pointers d)) ->
  is_finite (SrcEvent.timeStamp (srcEvent d)) = true ->
  exists c,
    computed (snd (handle inst et d)) = Normal c /\
    deltaX c = 0%float /\ deltaY c = 0%float /\
    distance c = 0%float /\ direction c = DIRECTION_NONE /\
    deltaTime c = 0%float.
Proof.
  intros Hfirst Hwf Hwhole Hpix Hts.
  rewrite handle_computed, Hfirst.
  destruct (enrich_delivers round atan2 emptySession d
              emptySession_baselineOk Hwf) as [c Hc].
  exists c. split; [assumption|].
  assert (Hfi : firstInput (fst (enrich emptySession d)) = Some (clone d))
    by now rewrite enrich_firstInput.
  assert (Hbase : firstMultiple (fst (enrich emptySession d)) = Some (clone d) \/
                  (firstMultiple (fst (enrich emptySession d)) = None /\
                   firstInput (fst (enrich emptySession d)) = Some (clone d))).
  { destruct (List.length (pointers d)) as [|[|n]] eqn:Hlen.
    - right. split; [|assumption].
      now rewrite (enrich_firstMultiple_none round atan2 _ _ Hlen).
    - right. split; [|assumption].
      now apply enrich_firstMultiple_single.
    - left. apply enrich_firstMultiple_many_absent; [lia|reflexivity]. }
  destruct (own_baseline_no_displacement emptySession d c Hwhole Hpix Hbase Hc)
    as (H1 & H2 & H3 & H4).
  repeat split; try assumption.
  pose proof (enrich_delivered round atan2 emptySession d _ c Hfi Hc) as H.
  cbv zeta in H. destruct H as (_ & _ & _ & _ & _ & _ & Hdt & _).
  rewrite Hdt. cbn. now apply sub_diag.
Qed.

(** X11. A pinch starts at the identity: the sample that stores the
    multi-pointer baseline (none stored before, two pointers or more, at
    whole-pixel coordinates) is delivered with deltaX = deltaY = 0 when its
    center is finite, with scale exactly 1 when its first two pointers are a
    finite non-zero distance apart, and with rotation exactly 0 when the
    angle between them is finite. *)
Theorem first_multi_sample_identity (s : Session) (d : RawInput) (c0 c1 : Pointer) :
  firstMultiple s = None ->
  index (pointers d) 0 = Some c0 -> index (pointers d) 1 = Some c1 ->
  wholePixels round (pointers d) ->
  exists c,
    snd (enrich s d) = Normal c /\
    (pixel (getCenter round (pointers d)) ->
     deltaX c = 0%float /\ deltaY c = 0%float /\
     distance c = 0%float /\ direction c = DIRECTION_NONE) /\
    (is_finite (getDistance c0 c1 PROPS_CLIENT_XY) = true ->
     (getDistance c0 c1 PROPS_CLIENT_XY =? 0)%float = false ->
     scale c = 1%float) /\
    (is_finite (getAngle atan2 c1 c0 PROPS_CLIENT_XY) = true ->
     rotation c = 0%float).
Proof.
  intros Hnone H0 H1 Hwhole.
  assert (Hlen : 1 < List.length (pointers d)).
  { apply nth_error_Some. unfold index in H1. congruence. }
  assert (Hfm : firstMultiple (fst (enrich s d)) = Some (clone d))
    by now apply enrich_firstMultiple_many_absent.
  destruct (wholePixels_clone d Hwhole) as [Hptrs _].
  destruct (enrich_delivers_slots round atan2 s d (clone d) c0 c1 c0 c1)
    as (c & Hc & Hs & Hr); try assumption; try (now rewrite Hptrs).
  exists c. split; [assumption|]. split; [|split].
  - intros Hpix.
    apply (own_baseline_no_displacement s d c); auto.
  - intros Hfin Hnz. rewrite Hs. now apply div_self.
  - intros Hfin. rewrite Hr. now apply sub_diag.
Qed.

(** X12. A stored multi-pointer baseline is the snapshot of one sample of
    the gesture: a sample with more than one pointer that arrived when no
    such baseline was stored, and that no single-pointer sample follows. *)
Theorem firstMultiple_provenance (ds : list RawInput) (fm : Snapshot.t) :
  firstMultiple (enrichAll round atan2 emptySession ds) = Some fm ->
  exists before d after,
    ds = before ++ d :: after /\
    firstMultiple (enrichAll round atan2 emptySession before) = None /\
    1 < List.length (pointers d) /\
    fm = clone d /\
    Forall (fun d' => List.length (pointers d') <> 1) after.
Proof.
  induction ds as [|d ds IH] using rev_ind; [discriminate|].
  rewrite enrichAll_snoc.
  destruct (List.length (pointers d)) as [|[|n]] eqn:Hlen.
  - rewrite (enrich_firstMultiple_none round atan2 _ _ Hlen). intros Hfm.
    destruct (IH Hfm) as (before & d0 & after & -> & Hnone & Hmany & Heq & Hafter).
    exists before, d0, (after ++ [d]). repeat split; auto.
    + now rewrite <- app_assoc.
    + apply Forall_app. split; [assumption|]. constructor; [lia|constructor].
  - rewrite (enrich_firstMultiple_single round atan2 _ _ Hlen). discriminate.
  - destruct (firstMultiple (enrichAll round atan2 emptySession ds)) as [fm0|] eqn:Hfm0.
    + rewrite (enrich_firstMultiple_many_present round atan2 _ d fm0)
        by (try assumption; lia).
      intros [= <-].
      destruct (IH eq_refl) as (before & d0 & after & -> & Hnone & Hmany & Heq & Hafter).
      exists before, d0, (after ++ [d]). repeat split; auto.
      * now rewrite <- app_assoc.
      * apply Forall_app. split; [assumption|]. constructor; [lia|constructor].
    + rewrite (enrich_firstMultiple_many_absent round atan2 _ d)
        by (try assumption; lia).
      intros [= <-].
      exists ds, d, []. repeat split; auto. lia.
Qed.

(** X13. Throughout a gesture the time is counted from its first sample:
    after a sample classified first and any number of samples that are not,
    a further sample that is not classified first is delivered with
    deltaTime = its timestamp minus the timestamp of the first sample; when
    both timestamps are finite and the later one is not below the first,
    that deltaTime is not negative. *)
Theorem deltaTime_from_first_sample
        (inst : Instance) (et0 : Z) (d0 : RawInput)
        (events : list (Z * RawInput)) (et : Z) (d : RawInput) (c : Computed) :
  isFirst (snd (handle inst et0 d0)) = true ->
  Forall (fun e => isFirst (snd (handle inst (fst e) (snd e))) = false) events ->
  isFirst (snd (handle inst et d)) = false ->
  computed (snd (handle (handleAll round atan2 inst ((et0, d0) :: events)) et d)) =
  Normal c ->
  deltaTime c =
  (SrcEvent.timeStamp (srcEvent d) - SrcEvent.timeStamp (srcEvent d0))%float /\
  (is_finite (SrcEvent.timeStamp (srcEvent d0)) = true ->
   is_finite (SrcEvent.timeStamp (srcEvent d)) = true ->
   (SrcEvent.timeStamp (srcEvent d0) <=? SrcEvent.timeStamp (srcEvent d))%float
   = true ->
   (0 <=? deltaTime c)%float = true).
Proof.
  intros Hfirst Hrest Hnot Hrun.
  set (inst1 := handleAll round atan2 inst ((et0, d0) :: events)) in *.
  assert (Hfi : firstInput (session inst1) = Some (clone d0)).
  { unfold inst1. cbn [handleAll fold_left fst snd].
    apply (handleAll_keeps_firstInput round atan2 inst events Hrest).
    now rewrite handle_session, Hfirst, enrich_firstInput. }
  rewrite handle_computed, (handle_isFirst_any round atan2 inst1 inst), Hnot in Hrun.
  assert (Hfi' : firstInput (fst (enrich (session inst1) d)) = Some (clone d0))
    by now apply enrich_keeps_firstInput.
  pose proof (enrich_delivered round atan2 _ d _ c Hfi' Hrun) as H.
  cbv zeta in H. destruct H as (_ & _ & _ & _ & _ & _ & Hdt & _).
  cbn in Hdt. split; [exact Hdt|].
  intros Hf0 Hf Hle. rewrite Hdt. now apply sub_ordered.
Qed.

End EngineMore.

(** ** Adapter selection *)

(** *** Matching without regard to case *)

Lemma prefix_ci_iff (w s : string) :
  prefix_ci w s = true <->
  exists w' rest, s = (w' ++ rest)%string /\ casefold w' = casefold w.
Proof.
  revert s. induction w as [|a w IH]; intros s; cbn.
  - split; [|reflexivity]. intros _. now exists EmptyString, s.
  - destruct s as [|b s].
    + split; [discriminate|].
      intros (w' & rest & Heq & Hfold).
      destruct w'; cbn in *; discriminate.
    + rewrite andb_true_iff, Ascii.eqb_eq, IH. split.
      * intros (Hc & w' & rest & -> & Hfold).
        exists (String b w'), rest. cbn. split; [reflexivity|]. congruence.
      * intros (w' & rest & Heq & Hfold).
        destruct w' as [|c w']; cbn in *; [discriminate|].
        injection Heq as -> ->. injection Hfold as Hc Hfold.
        split; [congruence|]. now exists w', rest.
Qed.

Lemma contains_ci_iff (w s : string) :
  contains_ci w s = true <->
  exists pre w' post, s = (pre ++ w' ++ post)%string /\ casefold w' = casefold w.
Proof.
  induction s as [|b s IH]; cbn [contains_ci]; rewrite orb_true_iff, prefix_ci_iff.
  - split.
    + intros [(w' & rest & Heq & Hfold)|Hf]; [|discriminate].
      now exists EmptyString, w', rest.
    + intros (pre & w' & post & Heq & Hfold). left.
      destruct pre; cbn in Heq; [|discriminate]. now exists w', post.
  - rewrite IH. split.
    + intros [(w' & rest & Heq & Hfold)|(pre & w' & post & -> & Hfold)].
      * now exists EmptyString, w', rest.
      * now exists (String b pre), w', post.
    + intros (pre & w' & post & Heq & Hfold).
      destruct pre as [|c pre]; cbn in Heq.
      * left. now exists w', post.
      * right. injection Heq as -> ->. now exists pre, w', post.
Qed.

(** X14. [MOBILE_REGEX] matches a user agent exactly when one of its seven
    words occurs in it somewhere, in any mix of upper and lower case. *)
Theorem MOBILE_REGEX_test_iff (ua : string) :
  MOBILE_REGEX_test ua = true <->
  exists word pre w post,
    In word MOBILE_WORDS /\ ua = (pre ++ w ++ post)%string /\
    casefold w = casefold word.
Proof.
  unfold MOBILE_REGEX_test. rewrite existsb_exists. split.
  - intros (word & Hin & Hc). apply contains_ci_iff in Hc.
    destruct Hc as (pre & w & post & Heq & Hfold).
    now exists word, pre, w, post.
  - intros (word & pre & w & post & Hin & Heq & Hfold).
    exists word. split; [assumption|]. apply contains_ci_iff.
    now exists pre, w, post.
Qed.

(** X15. The adapter choice, case by case: pointer events win whatever
    else is supported; without them and without touch the mouse adapter is
    chosen; with touch the user agent decides between the touch adapter (a
    mobile device) and the combined touch and mouse adapter. *)
Theorem createInputInstance_cases (pf : Platform) :
  (createInputInstance pf = PointerEventInput <-> SUPPORT_POINTER_EVENTS pf = true) /\
  (createInputInstance pf = MouseInput <->
   SUPPORT_POINTER_EVENTS pf = false /\ SUPPORT_TOUCH pf = false) /\
  (createInputInstance pf = TouchInput <->
   SUPPORT_POINTER_EVENTS pf = false /\ SUPPORT_TOUCH pf = true /\
   MOBILE_REGEX_test (userAgent pf) = true) /\
  (createInputInstance pf = TouchMouseInput <->
   SUPPORT_POINTER_EVENTS pf = false /\ SUPPORT_TOUCH pf = true /\
   MOBILE_REGEX_test (userAgent pf) = false).
Proof.
  unfold createInputInstance, SUPPORT_ONLY_TOUCH.
  destruct (SUPPORT_POINTER_EVENTS pf), (SUPPORT_TOUCH pf),
    (MOBILE_REGEX_test (userAgent pf)); cbn; repeat split; intros;
    try discriminate; try reflexivity; intuition discriminate.
Qed.

(** ** The engine evaluated on a two-finger gesture *)

Local Abbreviation enrich0 := (computeInputData Math_round Math_atan2).
Local Abbreviation handle0 := (inputHandler Math_round Math_atan2).

Lemma twoFingers_baselineOk : baselineOk twoFingers.
Proof. apply enrichAll_baselineOk, emptySession_baselineOk. Qed.

Lemma oneFinger_baselineOk : baselineOk oneFinger.
Proof. apply enrichAll_baselineOk, emptySession_baselineOk. Qed.

(** C1 at the second finger's arrival, at a dip to one pointer, and at the
    multi-pointer sample after the dip. *)
Lemma firstMultiple_lifecycle_witness :
  (1 < List.length (pointers secondDown) /\
   firstMultiple oneFinger = None /\
   firstMultiple (fst (enrich0 oneFinger secondDown)) =
   Some (simpleCloneInputData Math_round secondDown)) /\
  (List.length (pointers lastUp) = 1 /\
   firstMultiple (fst (enrich0 twoFingers lastUp)) = None) /\
  firstMultiple (enrichAll Math_round Math_atan2 twoFingers [lastUp; pinchOut]) =
  Some (simpleCloneInputData Math_round pinchOut).
Proof.
  destruct (firstMultiple_lifecycle Math_round Math_atan2)
    as (Hset & _ & Hclear & _ & Hdip).
  assert (Hmany : 1 < List.length (pointers secondDown)) by (cbn; lia).
  assert (Hmany' : 1 < List.length (pointers pinchOut)) by (cbn; lia).
  assert (Hnone : firstMultiple oneFinger = None) by reflexivity.
  assert (Hone : List.length (pointers lastUp) = 1) by reflexivity.
  split; [|split].
  - split; [exact Hmany|]. split; [exact Hnone|].
    exact (Hset oneFinger secondDown Hmany Hnone).
  - split; [exact Hone|]. exact (Hclear twoFingers lastUp Hone).
  - exact (Hdip twoFingers lastUp pinchOut Hone Hmany').
Defined.

(** C2 while pinching: the offset is the center (5,0) of [firstMultiple],
    the time is counted from [firstInput]. *)
Lemma enrich_offsets_witness :
  baselineOk twoFingers /\ wellFormed pinchOut /\
  exists c,
    snd (enrich0 twoFingers pinchOut) = Normal c /\
    center c = {| x := 10; y := 0 |} /\
    deltaX c = 5%float /\ deltaY c = 0%float /\ deltaTime c = 300%float /\
    distance c = 5%float /\ direction c = DIRECTION_RIGHT.
Proof.
  assert (Hok : baselineOk twoFingers) by exact twoFingers_baselineOk.
  assert (Hwf : wellFormed pinchOut) by (unfold wellFormed; cbn; lia).
  split; [exact Hok|]. split; [exact Hwf|].
  destruct (enrich_offsets Math_round Math_atan2 twoFingers pinchOut)
    as (fi & Hfi & Hdel & Hall).
  destruct (Hdel Hok Hwf) as [c Hc].
  destruct (Hall c Hc) as (H1 & _ & H3 & H4 & H5 & H6 & H7).
  vm_compute in Hfi. injection Hfi as Hfi. subst fi.
  exists c. split; [exact Hc|].
  rewrite H1, H3, H4, H5, H6, H7.
  repeat split; vm_compute; reflexivity.
Defined.

(** C3 with one finger (scale 1, rotation 0) and while pinching from a
    distance of 10 to a distance of 20 (scale 2). *)
Lemma enrich_scale_rotation_witness :
  (firstMultiple (fst (enrich0 oneFinger fingerMove)) = None /\
   exists c, snd (enrich0 oneFinger fingerMove) = Normal c /\
             scale c = 1%float /\ rotation c = 0%float) /\
  (firstMultiple (fst (enrich0 twoFingers pinchOut)) =
   Some (simpleCloneInputData Math_round secondDown) /\
   exists c, snd (enrich0 twoFingers pinchOut) = Normal c /\
             scale c = 2%float /\ rotation c = 0%float).
Proof.
  destruct (enrich_scale_rotation Math_round Math_atan2) as (Habsent & Hpresent & _).
  split.
  - assert (Hnone : firstMultiple (fst (enrich0 oneFinger fingerMove)) = None)
      by reflexivity.
    split; [exact Hnone|].
    exact (Habsent oneFinger fingerMove Hnone).
  - assert (Hsome : firstMultiple (fst (enrich0 twoFingers pinchOut)) =
                    Some (simpleCloneInputData Math_round secondDown))
      by reflexivity.
    split; [exact Hsome|].
    destruct (Hpresent twoFingers pinchOut _
                       (touch 0 0) (touch 10 0) (touch 0 0) (touch 20 0)
                       Hsome eq_refl eq_refl eq_refl eq_refl)
      as (c & Hc & Hs & Hr).
    exists c. split; [exact Hc|].
    rewrite Hs, Hr. split; vm_compute; reflexivity.
Defined.

(** C4 on a vertical move and on a point compared with itself. *)
Lemma getDirection_cases_witness :
  getDirection {| x := 0; y := 0 |} {| x := 0; y := 10 |} = DIRECTION_DOWN /\
  getDirection {| x := 0; y := 10 |} {| x := 0; y := 0 |} = DIRECTION_UP /\
  pixel {| x := 3; y := 4 |} /\
  getDirection {| x := 3; y := 4 |} {| x := 3; y := 4 |} = DIRECTION_NONE.
Proof.
  destruct getDirection_cases as (Hcases & Hself & _ & _).
  split; [|split; [|split]].
  - exact (proj2 (proj2 (proj2 (proj2
             (Hcases {| x := 0; y := 0 |} {| x := 0; y := 10 |}))))
             eq_refl eq_refl eq_refl).
  - exact (proj1 (proj2 (proj2 (proj2
             (Hcases {| x := 0; y := 10 |} {| x := 0; y := 0 |}))))
             eq_refl eq_refl eq_refl).
  - split; reflexivity.
  - apply Hself. split; reflexivity.
Defined.

(** C5 on the first and the last sample of the gesture, and on a cancel. *)
Lemma classifier_flags_witness :
  isFirst (snd (handle0 beforeLastUp EVENT_START fingerDown)) = true /\
  isFinal (snd (handle0 beforeLastUp EVENT_END lastUp)) = true /\
  isFinal (snd (handle0 beforeLastUp EVENT_END secondUp)) = false /\
  isFinal (snd (handle0 beforeLastUp EVENT_CANCEL lastUp)) = false.
Proof.
  split; [|split; [|split]].
  - apply (classifier_flags Math_round Math_atan2 beforeLastUp EVENT_START fingerDown).
    split; reflexivity.
  - apply (classifier_flags Math_round Math_atan2 beforeLastUp EVENT_END lastUp).
    split; reflexivity.
  - reflexivity.
  - apply (classifier_flags Math_round Math_atan2 beforeLastUp EVENT_CANCEL lastUp).
    reflexivity.
Defined.

(** C6 on the last sample of the gesture (the session is not replaced,
    [firstInput] is still the snapshot of the first sample) and on its first
    sample (the session is the enrichment of a fresh one). *)
Lemma session_reset_only_on_first_witness :
  isFinal (snd (handle0 beforeLastUp EVENT_END lastUp)) = true /\
  session (fst (handle0 beforeLastUp EVENT_END lastUp)) =
  fst (enrich0 (session beforeLastUp) lastUp) /\
  firstInput (session (fst (handle0 beforeLastUp EVENT_END lastUp))) =
  Some (simpleCloneInputData Math_round fingerDown) /\
  isFirst (snd (handle0 beforeLastUp EVENT_START fingerDown)) = true /\
  session (fst (handle0 beforeLastUp EVENT_START fingerDown)) =
  fst (enrich0 emptySession fingerDown).
Proof.
  destruct (session_reset_only_on_first Math_round Math_atan2) as (Hstep & _).
  assert (Hfinal : isFinal (snd (handle0 beforeLastUp EVENT_END lastUp)) = true)
    by reflexivity.
  assert (Hfirst : isFirst (snd (handle0 beforeLastUp EVENT_START fingerDown)) = true)
    by reflexivity.
  destruct (Hstep beforeLastUp EVENT_END lastUp) as (_ & _ & _ & Hfin).
  destruct (Hfin Hfinal) as (Hsame & Hkeep & _ & _).
  destruct (Hstep beforeLastUp EVENT_START fingerDown) as (Hreset & _).
  split; [exact Hfinal|]. split; [exact Hsame|].
  split; [exact (Hkeep _ eq_refl)|].
  split; [exact Hfirst|]. exact (Hreset Hfirst).
Defined.

(** C6 as stated fails: when the last finger of a two-finger gesture is
    lifted, the sample is classified isFinal and carries one pointer, and
    [firstMultiple], present before it, is cleared by it. *)
Lemma final_sample_clears_firstMultiple :
  isFinal (snd (handle0 beforeLastUp EVENT_END lastUp)) = true /\
  firstMultiple (session beforeLastUp) =
  Some (simpleCloneInputData Math_round secondDown) /\
  firstMultiple (session (fst (handle0 beforeLastUp EVENT_END lastUp))) = None.
Proof. repeat split. Qed.

(** C7 on three pointers in two orders; the center (15,0) of the bounding
    box is not the centroid (10,0). *)
Lemma getCenter_bounding_box_witness :
  Permutation [touch 0 0; touch 0 0; touch 30 0] [touch 30 0; touch 0 0; touch 0 0] /\
  getCenter Math_round [touch 0 0; touch 0 0; touch 30 0] =
  getCenter Math_round [touch 30 0; touch 0 0; touch 0 0] /\
  getCenter Math_round [touch 0 0; touch 0 0; touch 30 0] = {| x := 15; y := 0 |}.
Proof.
  assert (Hperm : Permutation [touch 0 0; touch 0 0; touch 30 0]
                              [touch 30 0; touch 0 0; touch 0 0]).
  { apply Permutation_sym.
    apply (Permutation_cons_app [touch 0 0; touch 0 0] [] (touch 30 0)).
    apply Permutation_refl. }
  destruct (getCenter_bounding_box Math_round) as (_ & Hbox & _ & Hord).
  split; [exact Hperm|]. split; [exact (Hord _ _ Hperm)|].
  rewrite Hbox by (cbn; lia). vm_compute. reflexivity.
Defined.

(** C8 on two fingers that landed on the same pixel: the scale of the
    next sample is 5 / 0. *)
Lemma scale_zero_baseline_witness :
  coincident (touch 5 5) (touch 5 5) /\
  getDistance (touch 5 5) (touch 5 5) PROPS_CLIENT_XY = 0%float /\
  exists c, snd (enrich0 stacked stackedMove) = Normal c /\
            scale c = infinity /\ is_finite (scale c) = false.
Proof.
  assert (Hco : coincident (touch 5 5) (touch 5 5)) by (split; reflexivity).
  destruct (scale_zero_baseline Math_round Math_atan2) as (Hscale & Hengine).
  destruct (Hscale [touch 5 5; touch 5 5] [touch 5 5; touch 8 9]
                   (touch 5 5) (touch 5 5) (touch 5 5) (touch 8 9)
                   eq_refl eq_refl eq_refl eq_refl Hco) as (Hzero & _ & _).
  split; [exact Hco|]. split; [exact (Hzero eq_refl eq_refl)|].
  destruct (Hengine stacked stackedMove (simpleCloneInputData Math_round stackedDown)
                    (touch 5 5) (touch 5 5) (touch 5 5) (touch 8 9)
                    eq_refl eq_refl eq_refl eq_refl eq_refl Hco)
    as (c & Hc & Hs & Hnf).
  exists c. split; [exact Hc|]. split; [|exact Hnf].
  rewrite Hs. vm_compute. reflexivity.
Defined.

(** C9 on a single moving finger. *)
Lemma enrich_velocity_placeholder_witness :
  baselineOk oneFinger /\ wellFormed fingerMove /\
  exists c, snd (enrich0 oneFinger fingerMove) = Normal c /\
            velocity c = 0.5%float /\ velocityX c = 0.5%float /\
            velocityY c = 0.5%float.
Proof.
  assert (Hok : baselineOk oneFinger) by exact oneFinger_baselineOk.
  assert (Hwf : wellFormed fingerMove) by (unfold wellFormed; cbn; lia).
  split; [exact Hok|]. split; [exact Hwf|].
  destruct (enrich_velocity_placeholder Math_round Math_atan2 oneFinger fingerMove)
    as (Hdel & Hall).
  destruct (Hdel Hok Hwf) as [c Hc].
  exists c. split; [exact Hc|]. exact (Hall c Hc).
Defined.

(** C10 while pinching. *)
Lemma scale_rotation_in_bounds_witness :
  wellFormed pinchOut /\
  firstMultiple (fst (enrich0 twoFingers pinchOut)) =
  Some (simpleCloneInputData Math_round secondDown) /\
  2 <= List.length (Snapshot.pointers (simpleCloneInputData Math_round secondDown)) /\
  2 <= List.length (pointers pinchOut) /\
  exists c, snd (enrich0 twoFingers pinchOut) = Normal c.
Proof.
  assert (Hwf : wellFormed pinchOut) by (unfold wellFormed; cbn; lia).
  assert (Hfm : firstMultiple (fst (enrich0 twoFingers pinchOut)) =
                Some (simpleCloneInputData Math_round secondDown)) by reflexivity.
  destruct (scale_rotation_in_bounds Math_round Math_atan2
              [fingerDown; secondDown] pinchOut _ Hwf Hfm)
    as (H1 & H2 & _ & _ & H5).
  split; [exact Hwf|]. split; [exact Hfm|].
  split; [exact H1|]. split; [exact H2|]. exact H5.
Defined.

(** The spec's pinch: start pointers (0,0) and (10,0), end pointers (0,0)
    and (20,0). *)
Example getScale_pinch :
  getScale [touch 0 0; touch 10 0] [touch 0 0; touch 20 0] = Normal 2%float.
Proof. reflexivity. Qed.

(** A sample without pointers while a multi-pointer baseline is stored
    breaks the input contract: reading slot 1 throws. *)
Example enrich_no_pointer_throws :
  snd (enrich0 twoFingers (sampleAt 400 [] [touch 0 0])) = Throw TypeError.
Proof. reflexivity. Qed.

(** ** The further properties evaluated *)

(** X3 on a move to the right, seen from both ends. *)
Lemma getDirection_reverse_witness :
  pixel {| x := 0; y := 0 |} /\ pixel {| x := 10; y := 0 |} /\
  getDirection {| x := 10; y := 0 |} {| x := 0; y := 0 |} =
  opposite (getDirection {| x := 0; y := 0 |} {| x := 10; y := 0 |}).
Proof.
  assert (H1 : pixel {| x := 0; y := 0 |}) by (split; reflexivity).
  assert (H2 : pixel {| x := 10; y := 0 |}) by (split; reflexivity).
  split; [exact H1|]. split; [exact H2|].
  exact (getDirection_reverse {| x := 0; y := 0 |} {| x := 10; y := 0 |} H1 H2).
Defined.

(** X4 on the pair (0,0), (3,4): distance 5, a finite angle. *)
Lemma getScale_getRotation_self_witness :
  index (pointers spread) 0 = Some (touch 0 0) /\
  index (pointers spread) 1 = Some (touch 3 4) /\
  getScale (pointers spread) (pointers spread) = Normal 1%float /\
  getRotation Math_atan2 (pointers spread) (pointers spread) = Normal 0%float.
Proof.
  destruct (getScale_getRotation_self Math_atan2 (pointers spread)
              (touch 0 0) (touch 3 4) eq_refl eq_refl) as [Hs Hr].
  split; [reflexivity|]. split; [reflexivity|]. split.
  - apply Hs; vm_compute; reflexivity.
  - apply Hr; vm_compute; reflexivity.
Defined.

(** X5 with a third finger on top of the first of two. *)
Lemma getCenter_repeat_witness :
  In (touch 0 0) (pointers spread) /\
  2 <= List.length (pointers spread) /\
  getCenter Math_round (touch 0 0 :: pointers spread) =
  getCenter Math_round (pointers spread).
Proof.
  assert (Hin : In (touch 0 0) (pointers spread)) by (left; reflexivity).
  assert (Hlen : 2 <= List.length (pointers spread)) by (cbn; lia).
  split; [exact Hin|]. split; [exact Hlen|].
  exact (getCenter_repeat Math_round (touch 0 0) (pointers spread) Hin Hlen).
Defined.

(** X9 for a finger that lands after a pinch and on a fresh instance. *)
Lemma first_sample_forgets_witness :
  isFirst (snd (handle0 beforeLastUp EVENT_START fingerDown)) = true /\
  handle0 beforeLastUp EVENT_START fingerDown =
  handle0 {| session := emptySession |} EVENT_START fingerDown.
Proof.
  assert (Hfirst : isFirst (snd (handle0 beforeLastUp EVENT_START fingerDown)) = true)
    by reflexivity.
  split; [exact Hfirst|].
  exact (first_sample_forgets Math_round Math_atan2 beforeLastUp
           {| session := emptySession |} EVENT_START fingerDown Hfirst).
Defined.

(** X10 for a finger that lands after a pinch. *)
Lemma first_sample_at_rest_witness :
  isFirst (snd (handle0 beforeLastUp EVENT_START fingerDown)) = true /\
  wellFormed fingerDown /\
  wholePixels Math_round (pointers fingerDown) /\
  pixel (getCenter Math_round (pointers fingerDown)) /\
  is_finite (SrcEvent.timeStamp (srcEvent fingerDown)) = true /\
  exists c,
    computed (snd (handle0 beforeLastUp EVENT_START fingerDown)) = Normal c /\
    deltaX c = 0%float /\ deltaY c = 0%float /\
    distance c = 0%float /\ direction c = DIRECTION_NONE /\
    deltaTime c = 0%float.
Proof.
  assert (Hfirst : isFirst (snd (handle0 beforeLastUp EVENT_START fingerDown)) = true)
    by reflexivity.
  assert (Hwf : wellFormed fingerDown) by (unfold wellFormed; cbn; lia).
  assert (Hwhole : wholePixels Math_round (pointers fingerDown))
    by (repeat constructor).
  assert (Hpix : pixel (getCenter Math_round (pointers fingerDown)))
    by (split; reflexivity).
  assert (Hts : is_finite (SrcEvent.timeStamp (srcEvent fingerDown)) = true)
    by reflexivity.
  repeat (split; [assumption|]).
  exact (first_sample_at_rest Math_round Math_atan2 beforeLastUp EVENT_START
           fingerDown Hfirst Hwf Hwhole Hpix Hts).
Defined.

(** X11 when a second finger lands at (3,4) beside one at (0,0). *)
Lemma first_multi_sample_identity_witness :
  firstMultiple oneFinger = None /\
  wholePixels Math_round (pointers spread) /\
  exists c,
    snd (enrich0 oneFinger spread) = Normal c /\
    deltaX c = 0%float /\ deltaY c = 0%float /\
    scale c = 1%float /\ rotation c = 0%float.
Proof.
  assert (Hnone : firstMultiple oneFinger = None) by reflexivity.
  assert (Hwhole : wholePixels Math_round (pointers spread))
    by (repeat constructor).
  split; [exact Hnone|]. split; [exact Hwhole|].
  destruct (first_multi_sample_identity Math_round Math_atan2 oneFinger spread
              (touch 0 0) (touch 3 4) Hnone eq_refl eq_refl Hwhole)
    as (c & Hc & Hrest & Hs & Hr).
  exists c. split; [exact Hc|].
  destruct Hrest as (Hdx & Hdy & _); [split; reflexivity|].
  split; [exact Hdx|]. split; [exact Hdy|]. split.
  - apply Hs; vm_compute; reflexivity.
  - apply Hr; vm_compute; reflexivity.
Defined.

(** X12 for the baseline stored while pinching. *)
Lemma firstMultiple_provenance_witness :
  firstMultiple (enrichAll Math_round Math_atan2 emptySession
                   [fingerDown; secondDown; pinchOut]) =
  Some (simpleCloneInputData Math_round secondDown) /\
  exists before d after,
    [fingerDown; secondDown; pinchOut] = before ++ d :: after /\
    firstMultiple (enrichAll Math_round Math_atan2 emptySession before) = None /\
    1 < List.length (pointers d) /\
    simpleCloneInputData Math_round secondDown = simpleCloneInputData Math_round d /\
    Forall (fun d' => List.length (pointers d') <> 1) after.
Proof.
  assert (Hfm : firstMultiple (enrichAll Math_round Math_atan2 emptySession
                                 [fingerDown; secondDown; pinchOut]) =
                Some (simpleCloneInputData Math_round secondDown)) by reflexivity.
  split; [exact Hfm|].
  exact (firstMultiple_provenance Math_round Math_atan2
           [fingerDown; secondDown; pinchOut] _ Hfm).
Defined.

(** X13 at the end of the two-finger gesture: the last finger is lifted
    500 ms after the first one landed. *)
Lemma deltaTime_from_first_sample_witness :
  isFirst (snd (handle0 {| session := emptySession |} EVENT_START fingerDown)) = true /\
  exists c,
    computed (snd (handle0 beforeLastUp EVENT_END lastUp)) = Normal c /\
    deltaTime c = (500 - 0)%float /\
    (0 <=? deltaTime c)%float = true.
Proof.
  assert (Hfirst : isFirst (snd (handle0 {| session := emptySession |}
                                   EVENT_START fingerDown)) = true)
    by reflexivity.
  assert (Hrest : Forall (fun e => isFirst (snd (handle0 {| session := emptySession |}
                                                   (fst e) (snd e))) = false)
                         [(EVENT_START, secondDown); (EVENT_MOVE, pinchOut);
                          (EVENT_END, secondUp)])
    by (repeat constructor).
  assert (Hnot : isFirst (snd (handle0 {| session := emptySession |}
                                 EVENT_END lastUp)) = false)
    by reflexivity.
  split; [exact Hfirst|].
  destruct (computed (snd (handle0 beforeLastUp EVENT_END lastUp)))
    as [c|e] eqn:Hc.
  - exists c. split; [reflexivity|].
    destruct (deltaTime_from_first_sample Math_round Math_atan2
                {| session := emptySession |} EVENT_START fingerDown
                [(EVENT_START, secondDown); (EVENT_MOVE, pinchOut);
                 (EVENT_END, secondUp)]
                EVENT_END lastUp c Hfirst Hrest Hnot Hc) as [Hdt Hpos].
    split; [exact Hdt|].
    apply Hpos; reflexivity.
  - vm_compute in Hc. discriminate Hc.
Defined.

(** X16 on the two-finger gesture, at the sample that lifts the last
    finger. *)
Lemma handleAll_gesture_witness :
  isFirst (snd (handle0 {| session := emptySession |} EVENT_START fingerDown)) = true /\
  session beforeLastUp =
  enrichAll Math_round Math_atan2 emptySession
            [fingerDown; secondDown; pinchOut; secondUp] /\
  computed (snd (handle0 beforeLastUp EVENT_END lastUp)) =
  snd (enrich0 (enrichAll Math_round Math_atan2 emptySession
                          [fingerDown; secondDown; pinchOut; secondUp]) lastUp).
Proof.
  assert (Hfirst : isFirst (snd (handle0 {| session := emptySession |}
                                   EVENT_START fingerDown)) = true)
    by reflexivity.
  assert (Hrest : Forall (fun e => isFirst (snd (handle0 {| session := emptySession |}
                                                   (fst e) (snd e))) = false)
                         [(EVENT_START, secondDown); (EVENT_MOVE, pinchOut);
                          (EVENT_END, secondUp)])
    by (repeat constructor).
  destruct (handleAll_gesture Math_round Math_atan2
              {| session := emptySession |} EVENT_START fingerDown
              [(EVENT_START, secondDown); (EVENT_MOVE, pinchOut);
               (EVENT_END, secondUp)] Hfirst Hrest) as [Hs Hc].
  split; [exact Hfirst|]. split; [exact Hs|].
  exact (Hc EVENT_END lastUp eq_refl).
Defined.
